(** * TxAnalyzerService: the fan-out dispatcher of services/tx_analyzer.go

    The service reads transaction events from [TxChannel], turns each one
    into an [EvaluateRequest] and forwards a pointer to that request to
    one buffered channel per agent; one goroutine per agent
    ([newAgentStream]) receives from its channel and calls the agent.
    All goroutines run in one [errgroup] whose context is derived from
    the service's context.

    The embedding is an interleaving semantics.  Every goroutine is a
    small program counter, [step] executes one atomic action of one
    goroutine (or one action of the environment: the parent context is
    cancelled, time passes, an agent answers), and [run] executes a
    schedule.  Channels are FIFO buffers of capacity 100 holding
    pointers into a heap of requests.  Effects seen from outside (log
    lines, placements, Evaluate calls, channel closes, goroutine
    returns) are appended to a trace.

    What the model fixes:
    - the event source is the list of events it delivers before it
      closes [TxChannel]; receiving from it never waits;
    - a step is what a goroutine does between two points where another
      goroutine or the environment can be observed: a receive, the test
      of [ctx.Err()] with the local computation that follows it, one
      send, one [close], the return of one call;
    - an agent's answer, the moment the service's context is cancelled
      and the passing of time are inputs of the schedule;
    - a call context is the child made by [context.WithTimeout]: it is
      done when its parent is cancelled or when its own timer fires;
    - an unrecovered panic runs the deferred closing loop and then ends
      the process.

    After the dispatcher come the constructor [NewTxAnalyzerService]
    with [Stop], and the controller of the notifier
    (notifier/src/notificationController.ts) in the modules [Notifier]
    and [NotifierController]. *)

From Stdlib Require Import ZArith Lia.
From stdpp Require Import base list strings.

#[local] Set Warnings "-clear-no-such-hyp".

(** ** Go values *)

(** [context.Canceled] and [context.DeadlineExceeded], the two values a
    context's [Err()] takes once it is done. *)
Inductive CtxError := Canceled | DeadlineExceeded.

(** The [error] interface: a context error or any other error value. *)
Inductive error :=
  | ContextError (c : CtxError)
  | ErrorString (msg : string).

(** A call either returns or panics. *)
Inductive Outcome (A : Type) :=
  | Ret (a : A)
  | Panic (v : error).
Arguments Ret {A} a.
Arguments Panic {A} v.

(** Pointers are heap addresses. *)
Definition ptr := nat.

(** [make(chan *protocol.EvaluateRequest, 100)] *)
Definition queue_capacity : nat := 100.

(** [5*time.Second], in nanoseconds. *)
Definition Second : Z := 1000000000.
Definition call_timeout : Z := 5 * Second.

(** [func (t *TxAnalyzerService) Name() string] *)
Definition Name : string := "TxAnalyzerService"%string.

(** A buffered channel: the queued pointers, oldest first, and whether
    [close] was called on it. *)
Record Chan := mkChan { buf : list ptr; closed : bool }.

(** The goroutines of the group. *)
Inductive Task := Ingestion | Stream (i : nat).

(** Effects visible outside the goroutines, in the order they happen. *)
Inductive Effect :=
  | EvLogInfof (format : string) (args : list string)
  | EvLogError (msg : string) (e : error)
  | EvSend (i : nat) (p : ptr)
  | EvEvaluate (i : nat) (p : ptr) (deadline : Z)
  | EvClose (i : nat)
  | EvReturn (t : Task) (r : option error).

(** How the ingestion goroutine leaves its function body: by [return] or
    by a panic; the deferred closing loop runs in both cases. *)
Inductive Exit :=
  | ExitReturn (r : option error)
  | ExitPanic (v : error).

(** Program counter of one [newAgentStream] goroutine. *)
Inductive StreamPc :=
  | WRange                                   (* line 33: [for request := range input] *)
  | WCheck (request : ptr)                   (* line 34: about to test [ctx.Err()] *)
  | WCall (request : ptr) (deadline : Z) (cerr : option CtxError)
                                             (* line 38: [agent.Evaluate] in flight;
                                                [cerr] is [Err()] of the call's context *)
  | WDone (r : option error).                (* returned *)

(** ** Other packages *)

(** Types and functions the service takes from other packages:
    [feeds.TransactionEvent] with its method [ToMessage], the protobuf
    message and response types, [protocol.AgentClient],
    [jsonpb.Marshaler.MarshalToString], [uuid.UUID] with its method
    [String], and [uuid.NewUUID].  [NewUUID n] is the result of the
    [n]-th call (the generator reads the clock and package state).  A Go
    result [(T, error)] is a sum: [inl] the value, [inr] the error. *)
Class Externals := {
  TransactionEvent : Type;
  Message : Type;
  Response : Type;
  UUID : Type;
  AgentClient : Type;
  ToMessage : TransactionEvent -> Message + error;
  MarshalToString : Response -> string + error;
  UUID_String : UUID -> string;
  NewUUID : nat -> UUID + error }.

Section TxAnalyzer.
Context {ext : Externals}.

(** [protocol.EvaluateRequest] *)
Record EvaluateRequest := mkRequest { RequestId : string; Event : Message }.

(** Program counter of the ingestion goroutine (lines 68-98). *)
Inductive IngestPc :=
  | IRange                                   (* line 76: [for tx := range t.cfg.TxChannel] *)
  | ICheck (tx : TransactionEvent)           (* line 77: about to test [ctx.Err()] *)
  | ISend (request : ptr) (k : nat)          (* line 93: about to send to channel [k] *)
  | IDefer (k : nat) (x : Exit)              (* line 70: about to close channel [k] *)
  | IDone (r : option error)                 (* returned *)
  | ICrashed.                                (* unrecovered panic: the process is gone *)

Record State := mkState {
  now : Z;                                   (* the clock, in nanoseconds *)
  ctx_err : option CtxError;                 (* [Err()] of the group's context *)
  grp_err : option error;                    (* errgroup: the error kept by [errOnce] *)
  TxChannel : list TransactionEvent;         (* events still to be received *)
  heap : list EvaluateRequest;               (* allocated requests, by address *)
  uuid_calls : nat;                          (* calls of [uuid.NewUUID] so far *)
  agentChannels : list Chan;
  streams : list StreamPc;
  ingest : IngestPc;
  trace : list Effect }.

(** *** Field updates *)

Definition set_now (t : Z) (s : State) : State :=
  mkState t (ctx_err s) (grp_err s) (TxChannel s) (heap s) (uuid_calls s)
          (agentChannels s) (streams s) (ingest s) (trace s).
Definition set_ctx_err (c : option CtxError) (s : State) : State :=
  mkState (now s) c (grp_err s) (TxChannel s) (heap s) (uuid_calls s)
          (agentChannels s) (streams s) (ingest s) (trace s).
Definition set_grp_err (e : option error) (s : State) : State :=
  mkState (now s) (ctx_err s) e (TxChannel s) (heap s) (uuid_calls s)
          (agentChannels s) (streams s) (ingest s) (trace s).
Definition set_TxChannel (l : list TransactionEvent) (s : State) : State :=
  mkState (now s) (ctx_err s) (grp_err s) l (heap s) (uuid_calls s)
          (agentChannels s) (streams s) (ingest s) (trace s).
Definition alloc (r : EvaluateRequest) (s : State) : State :=
  mkState (now s) (ctx_err s) (grp_err s) (TxChannel s) (heap s ++ [r]) (S (uuid_calls s))
          (agentChannels s) (streams s) (ingest s) (trace s).
Definition set_chan (i : nat) (c : Chan) (s : State) : State :=
  mkState (now s) (ctx_err s) (grp_err s) (TxChannel s) (heap s) (uuid_calls s)
          (<[i := c]> (agentChannels s)) (streams s) (ingest s) (trace s).
Definition set_streams (l : list StreamPc) (s : State) : State :=
  mkState (now s) (ctx_err s) (grp_err s) (TxChannel s) (heap s) (uuid_calls s)
          (agentChannels s) l (ingest s) (trace s).
Definition set_stream (i : nat) (w : StreamPc) (s : State) : State :=
  set_streams (<[i := w]> (streams s)) s.
Definition set_ingest (pc : IngestPc) (s : State) : State :=
  mkState (now s) (ctx_err s) (grp_err s) (TxChannel s) (heap s) (uuid_calls s)
          (agentChannels s) (streams s) pc (trace s).
Definition emit (ev : Effect) (s : State) : State :=
  mkState (now s) (ctx_err s) (grp_err s) (TxChannel s) (heap s) (uuid_calls s)
          (agentChannels s) (streams s) (ingest s) (trace s ++ [ev]).

(** ** Contexts *)

(** A call context made by [context.WithTimeout(ctx, 5*time.Second)] is
    a child of the group's context: cancelling the parent cancels every
    child that is not done yet, with the parent's error. *)
Definition cancel_child (c : CtxError) (w : StreamPc) : StreamPc :=
  match w with
  | WCall p dl None => WCall p dl (Some c)
  | _ => w
  end.

(** Cancel the group's context; a context that is done stays as it is. *)
Definition cancel (c : CtxError) (s : State) : State :=
  match ctx_err s with
  | Some _ => s
  | None => set_streams (cancel_child c <$> streams s) (set_ctx_err (Some c) s)
  end.

(** The timer of a call context fires when its deadline is reached. *)
Definition fire_timer (t : Z) (w : StreamPc) : StreamPc :=
  match w with
  | WCall p dl None => if (dl <=? t)%Z then WCall p dl (Some DeadlineExceeded) else w
  | _ => w
  end.

Definition tick (d : N) (s : State) : State :=
  let t := (now s + Z.of_N d)%Z in
  set_streams (fire_timer t <$> streams s) (set_now t s).

(** ** errgroup *)

(** A goroutine started with [grp.Go] returns [r]: the first non-nil
    error is kept and cancels the group's context. *)
Definition grp_done (t : Task) (r : option error) (s : State) : State :=
  let s := emit (EvReturn t r) s in
  match r with
  | None => s
  | Some e =>
      match grp_err s with
      | Some _ => s
      | None => cancel Canceled (set_grp_err (Some e) s)
      end
  end.

(** ** Tagging (lines 88-90) *)

(** [uuid.Must]: panics when the error is not nil. *)
Definition uuid_Must (r : UUID + error) : Outcome UUID :=
  match r with
  | inl u => Ret u
  | inr e => Panic e
  end.

(** [requestId := uuid.Must(uuid.NewUUID())] and the request built from
    it; [n] counts the calls of [uuid.NewUUID]. *)
Definition tag (n : nat) (msg : Message) : Outcome EvaluateRequest :=
  match uuid_Must (NewUUID n) with
  | Ret requestId => Ret (mkRequest (UUID_String requestId) msg)
  | Panic v => Panic v
  end.

(** ** The ingestion goroutine (lines 68-98) *)

Definition step_ingest (s : State) : option State :=
  match ingest s with
  | IRange =>
      match TxChannel s with
      | [] => Some (set_ingest (IDefer 0 (ExitReturn None)) s)
      | tx :: rest => Some (set_ingest (ICheck tx) (set_TxChannel rest s))
      end
  | ICheck tx =>
      match ctx_err s with
      | Some c => Some (set_ingest (IDefer 0 (ExitReturn (Some (ContextError c)))) s)
      | None =>
          match ToMessage tx with
          | inr err =>
              Some (set_ingest IRange
                      (emit (EvLogError "error converting tx event to message"%string err) s))
          | inl msg =>
              match tag (uuid_calls s) msg with
              | Panic v => Some (set_ingest (IDefer 0 (ExitPanic v)) s)
              | Ret request =>
                  Some (set_ingest (ISend (length (heap s)) 0) (alloc request s))
              end
          end
      end
  | ISend p k =>
      match agentChannels s !! k with
      | None => Some (set_ingest IRange s)
      | Some c =>
          if closed c
          then Some (set_ingest (IDefer 0 (ExitPanic (ErrorString "send on closed channel"%string))) s)
          else if decide (length (buf c) < queue_capacity)
               then Some (set_ingest (ISend p (S k))
                            (emit (EvSend k p) (set_chan k (mkChan (buf c ++ [p]) false) s)))
               else None
      end
  | IDefer k x =>
      match agentChannels s !! k with
      | None =>
          match x with
          | ExitReturn r => Some (grp_done Ingestion r (set_ingest (IDone r) s))
          | ExitPanic _ => Some (set_ingest ICrashed s)
          end
      | Some c =>
          if closed c
          then Some (set_ingest ICrashed s)
          else Some (set_ingest (IDefer (S k) x)
                       (emit (EvClose k) (set_chan k (mkChan (buf c) true) s)))
      end
  | IDone _ => None
  | ICrashed => None
  end.

(** ** One agent stream (lines 31-54) *)

Definition step_stream (i : nat) (s : State) : option State :=
  match streams s !! i with
  | Some WRange =>
      match agentChannels s !! i with
      | Some c =>
          match buf c with
          | p :: rest => Some (set_stream i (WCheck p) (set_chan i (mkChan rest (closed c)) s))
          | [] =>
              if closed c
              then Some (grp_done (Stream i) None (set_stream i (WDone None) s))
              else None
          end
      | None => None
      end
  | Some (WCheck p) =>
      match ctx_err s with
      | Some c =>
          let r := Some (ContextError c) in
          Some (grp_done (Stream i) r (set_stream i (WDone r) s))
      | None =>
          let dl := (now s + call_timeout)%Z in
          Some (emit (EvEvaluate i p dl) (set_stream i (WCall p dl None) s))
      end
  | _ => None
  end.

(** [agent.Evaluate] returns [r] to stream [i] (lines 38-50). *)
Definition step_reply (i : nat) (r : Response + error) (s : State) : option State :=
  match streams s !! i with
  | Some (WCall _ _ _) =>
      match r with
      | inr err =>
          Some (set_stream i WRange (emit (EvLogError "error invoking agent"%string err) s))
      | inl resp =>
          match MarshalToString resp with
          | inr err =>
              Some (set_stream i WRange (emit (EvLogError "error marshaling response"%string err) s))
          | inl resStr =>
              Some (set_stream i WRange (emit (EvLogInfof resStr []) s))
          end
      end
  | _ => None
  end.

(** ** Schedules *)

Inductive Label :=
  | LCancel (c : CtxError)                   (* the service's context is cancelled *)
  | LTick (d : N)                            (* [d] nanoseconds pass *)
  | LIngest                                  (* the ingestion goroutine moves *)
  | LStream (i : nat)                        (* stream [i] moves *)
  | LReply (i : nat) (r : Response + error). (* the call of stream [i] returns *)

Definition crashed (s : State) : bool :=
  match ingest s with ICrashed => true | _ => false end.

Definition step (s : State) (l : Label) : option State :=
  if crashed s then None else
  match l with
  | LCancel c => Some (cancel c s)
  | LTick d => Some (tick d s)
  | LIngest => step_ingest s
  | LStream i => step_stream i s
  | LReply i r => step_reply i r s
  end.

Fixpoint run (s : State) (sched : list Label) : option State :=
  match sched with
  | [] => Some s
  | l :: rest =>
      match step s l with
      | Some s' => run s' rest
      | None => None
      end
  end.

(** ** Start (lines 56-101) *)

(** The state after the loop of lines 61-66 and [grp.Go] of line 68: one
    empty channel and one stream per agent, the ingestion goroutine at
    its loop head.  [txs] is what the event source delivers before it
    closes [TxChannel]; [t0] is the time of the call. *)
Definition Start_state (t0 : Z) (agents : list AgentClient)
    (txs : list TransactionEvent) : State :=
  mkState t0 None None txs [] 0
          ((fun _ => mkChan [] false) <$> agents)
          ((fun _ => WRange) <$> agents)
          IRange
          [EvLogInfof "Starting %s"%string [Name]].

Definition stream_done (w : StreamPc) : bool :=
  match w with WDone _ => true | _ => false end.

Definition all_done (s : State) : bool :=
  match ingest s with
  | IDone _ => forallb stream_done (streams s)
  | _ => false
  end.

(** [grp.Wait()]: blocks until every goroutine has returned, then yields
    the kept error; this is what [Start] returns. *)
Definition Wait (s : State) : option (option error) :=
  if all_done s then Some (grp_err s) else None.

End TxAnalyzer.

Arguments cancel : simpl never.
Arguments tick : simpl never.
Arguments grp_done : simpl never.

(** * Vocabulary

    What the statements below are written in: readings of the trace,
    the invariants of a run, the termination measure, and the concrete
    runs the examples use. *)

Section Vocabulary.
Context {ext : Externals}.

(** ** Reading the trace *)

(** Pointers placed on channel [i], in order. *)
Definition sends (i : nat) (tr : list Effect) : list ptr :=
  omap (λ ev, match ev with
              | EvSend j p => if decide (j = i) then Some p else None
              | _ => None
              end) tr.

(** Pointers handed to agent [i]'s [Evaluate], in order. *)
Definition calls (i : nat) (tr : list Effect) : list ptr :=
  omap (λ ev, match ev with
              | EvEvaluate j p _ => if decide (j = i) then Some p else None
              | _ => None
              end) tr.

(** Agents whose [Evaluate] was called with pointer [p], in order. *)
Definition callers (p : ptr) (tr : list Effect) : list nat :=
  omap (λ ev, match ev with
              | EvEvaluate j q _ => if decide (q = p) then Some j else None
              | _ => None
              end) tr.

(** Number of [close] calls on channel [i]. *)
Definition closes (i : nat) (tr : list Effect) : nat :=
  length (omap (λ ev, match ev with
                      | EvClose j => if decide (j = i) then Some () else None
                      | _ => None
                      end) tr).

(** Non-nil errors returned by goroutines of the group, in order. *)
Definition returned_errors (tr : list Effect) : list error :=
  omap (λ ev, match ev with
              | EvReturn _ (Some e) => Some e
              | _ => None
              end) tr.

(** The errors with which a schedule cancels the service's context. *)
Definition cancels (sched : list Label) : list CtxError :=
  omap (λ l, match l with LCancel c => Some c | _ => None end) sched.




(** ** What the ingestion loop computes *)

(** The requests the ingestion loop allocates for the events [txs] when
    [n] identifiers were generated before: events that do not translate
    are skipped; a failing generator panics and ends the loop. *)
Fixpoint requests_from (n : nat) (txs : list TransactionEvent) : list EvaluateRequest :=
  match txs with
  | [] => []
  | tx :: rest =>
      match ToMessage tx with
      | inr _ => requests_from n rest
      | inl msg =>
          match tag n msg with
          | Ret request => request :: requests_from (S n) rest
          | Panic _ => []
          end
      end
  end.

(** The payloads of the events that translate, in order. *)
Definition translated (txs : list TransactionEvent) : list Message :=
  omap (λ tx, match ToMessage tx with inl msg => Some msg | inr _ => None end) txs.

(** The events the loop has still to translate, while it is known. *)
Definition pending (s : State) : option (list TransactionEvent) :=
  match ingest s with
  | IRange => Some (TxChannel s)
  | ICheck tx => Some (tx :: TxChannel s)
  | ISend _ _ => Some (TxChannel s)
  | IDefer _ (ExitReturn None) => Some []
  | IDone None => Some []
  | _ => None
  end.


(** [s'] is [s] except that stream [i] is back at its loop head and
    [ev] was logged. *)
Definition logged_and_continued (s : State) (i : nat) (ev : Effect) (s' : State) : Prop :=
  trace s' = trace s ++ [ev] ∧
  streams s' = <[i := WRange]> (streams s) ∧
  agentChannels s' = agentChannels s ∧
  ingest s' = ingest s ∧ TxChannel s' = TxChannel s ∧ heap s' = heap s ∧
  grp_err s' = grp_err s ∧ ctx_err s' = ctx_err s.

(** ** Program counters up to the state of the call context *)

(** A stream's program counter without the state of its call context,
    which the environment changes. *)
Definition erase (w : StreamPc) : StreamPc :=
  match w with
  | WCall p dl _ => WCall p dl None
  | _ => w
  end.

Definition pcs (s : State) : list StreamPc := erase <$> streams s.

(** ** Invariants *)

(** [e] is the error of the group's context. *)
Definition ctx_error_of (s : State) (e : error) : Prop :=
  ∃ c, e = ContextError c ∧ ctx_err s = Some c.

(** What the ingestion goroutine returns, once it is decided. *)
Definition ingest_result (pc : IngestPc) : option (option error) :=
  match pc with
  | IDefer _ (ExitReturn r) => Some r
  | IDone r => Some r
  | _ => None
  end.

(** Every error in the group is the error of the group's context. *)
Record errors_inv (s : State) : Prop := {
  errors_grp : ∀ e, grp_err s = Some e → ctx_error_of s e;
  errors_stream : ∀ i e, pcs s !! i = Some (WDone (Some e)) → ctx_error_of s e;
  errors_ingest : ∀ e, ingest_result (ingest s) = Some (Some e) → ctx_error_of s e }.

(** One stream and one channel per agent. *)
Definition shape_inv (n : nat) (s : State) : Prop :=
  length (pcs s) = n ∧ length (agentChannels s) = n.

(** Channels [0 .. closed_upto - 1] are the closed ones. *)
Definition closed_upto (pc : IngestPc) (n : nat) : nat :=
  match pc with
  | IDefer k _ => k
  | IDone _ => n
  | _ => 0
  end.

(** A channel was closed once if it is closed and never otherwise, and
    the deferred loop closes the channels in order. *)
Record closing_inv (s : State) : Prop := {
  closing_count : ∀ i,
    closes i (trace s) =
    match agentChannels s !! i with
    | Some c => if closed c then 1 else 0
    | None => 0
    end;
  closing_upto : crashed s = false → ∀ i c,
    agentChannels s !! i = Some c →
    closed c = bool_decide (i < closed_upto (ingest s) (length (agentChannels s))) }.

(** The request a stream has received and not yet passed on. *)
Definition cur (w : StreamPc) : list ptr :=
  match w with
  | WCheck p => [p]
  | _ => []
  end.

(** Number of requests placed on channel [i] so far: every request
    allocated, except the current one while the sending loop has not
    reached [i]. *)
Definition placed (s : State) (i : nat) : nat :=
  match ingest s with
  | ISend p k => if decide (i < k) then S p else p
  | _ => length (heap s)
  end.

(** What stream [i] has passed to its agent ([cs]), holds, and still has
    queued, against the [n] requests placed on its channel.  A stream
    that returned the context's error dropped the request it held. *)
Definition stream_queue (cs : list ptr) (w : StreamPc) (c : Chan) (n : nat) : Prop :=
  match w with
  | WDone (Some _) => ∃ dropped, cs ++ dropped ++ buf c = seq 0 n
  | WDone None => closed c = true ∧ buf c = [] ∧ cs = seq 0 n
  | _ => cs ++ cur w ++ buf c = seq 0 n
  end.

(** Every channel was sent the pointers [0, 1, 2, ...] in order, and a
    stream takes them in that order. *)
Record queue_inv (s : State) : Prop := {
  queue_last : ∀ p k, ingest s = ISend p k → S p = length (heap s);
  queue_sends : ∀ i c, agentChannels s !! i = Some c → sends i (trace s) = seq 0 (placed s i);
  queue_calls : ∀ i w c, pcs s !! i = Some w → agentChannels s !! i = Some c →
    length (buf c) ≤ queue_capacity ∧ stream_queue (calls i (trace s)) w c (placed s i) }.

(** The heap holds the requests of the events translated so far. *)
Record heap_inv (txs : list TransactionEvent) (s : State) : Prop := {
  heap_uuid : uuid_calls s = length (heap s);
  heap_pending : ∀ l, pending s = Some l →
    requests_from 0 txs = heap s ++ requests_from (length (heap s)) l;
  heap_prefix : heap s `prefix_of` requests_from 0 txs;
  heap_events : ∀ l, pending s = Some l →
    translated txs = (Event <$> heap s) ++ translated l;
  heap_events_prefix : (Event <$> heap s) `prefix_of` translated txs }.

(** The error a goroutine has returned, if it returned one. *)
Definition returned (s : State) (e : error) : Prop :=
  ingest s = IDone (Some e) ∨ ∃ i, pcs s !! i = Some (WDone (Some e)).

(** The group keeps the first error a goroutine returned. *)
Record first_error_inv (s : State) : Prop := {
  first_error_head : grp_err s = head (returned_errors (trace s));
  first_error_owner : ∀ e, grp_err s = Some e → returned s e }.

(** The context of a call in flight is done exactly when the group's
    context is done or the deadline of the call has passed, and the
    deadline lies at most the timeout ahead. *)
Definition call_ctx_ok (s : State) (dl : Z) (cerr : option CtxError) : Prop :=
  (dl ≤ now s + call_timeout)%Z ∧
  match cerr with
  | None => ctx_err s = None ∧ (now s < dl)%Z
  | Some c => ctx_err s = Some c ∨ (c = DeadlineExceeded ∧ (dl ≤ now s)%Z)
  end.

Definition timing_inv (s : State) : Prop :=
  ∀ i p dl cerr, streams s !! i = Some (WCall p dl cerr) → call_ctx_ok s dl cerr.

(** The ingestion goroutine is unwinding a panic, or the process is
    gone. *)
Definition exit_panic (pc : IngestPc) : bool :=
  match pc with
  | IDefer _ (ExitPanic _) => true
  | ICrashed => true
  | _ => false
  end.

(** The only panic a run meets is the one of [uuid.Must]. *)
Definition panic_inv (s : State) : Prop :=
  exit_panic (ingest s) = true → ∃ n e, NewUUID n = inr e.

(** Only configured agents are called. *)
Definition calls_range_inv (s : State) : Prop :=
  ∀ i, length (pcs s) ≤ i → calls i (trace s) = [].

(** All of them, for a service with the agents [agents] reading the
    events [txs]. *)
Record Inv (agents : list AgentClient) (txs : list TransactionEvent) (s : State) : Prop := {
  inv_shape : shape_inv (length agents) s;
  inv_errors : errors_inv s;
  inv_closing : closing_inv s;
  inv_queue : queue_inv s;
  inv_heap : heap_inv txs s;
  inv_first_error : first_error_inv s;
  inv_timing : timing_inv s;
  inv_panic : panic_inv s;
  inv_calls_range : calls_range_inv s }.

(** ** Termination measure *)




(** The ingestion goroutine is stuck for good: it waits to send on a
    full channel whose stream has returned the context's error. *)
Definition blocked_on_send (s : State) : Prop :=
  ∃ p k c e, ingest s = ISend p k ∧ agentChannels s !! k = Some c ∧
    closed c = false ∧ length (buf c) = queue_capacity ∧
    streams s !! k = Some (WDone (Some e)).

(** The state a schedule leads to ([s] when a step is not enabled). *)
Definition state_after (s : State) (sched : list Label) : State :=
  default s (run s sched).

End Vocabulary.

(** ** Concrete runs *)

Module Demo.

(** Events, payloads, responses and identifiers are numbers.  The event
    [0] does not translate and the response [0] does not serialise. *)
Definition demo : Externals := {|
  TransactionEvent := nat;
  Message := nat;
  Response := nat;
  UUID := nat;
  AgentClient := string;
  ToMessage := λ tx,
    match tx with
    | 0 => inr (ErrorString "unsupported transaction")
    | S _ => inl tx
    end;
  MarshalToString := λ r,
    match r with
    | 0 => inr (ErrorString "unsupported response")
    | S _ => inl "{}"%string
    end;
  UUID_String := λ u, String (Ascii.ascii_of_nat (48 + u)) EmptyString;
  NewUUID := inl |}.

(** The same with an identifier generator that reports an error. *)
Definition demo_uuid_fails : Externals := {|
  TransactionEvent := nat;
  Message := nat;
  Response := nat;
  UUID := nat;
  AgentClient := string;
  ToMessage := λ tx, inl tx;
  MarshalToString := λ r, inl "{}"%string;
  UUID_String := λ u, String (Ascii.ascii_of_nat (48 + u)) EmptyString;
  NewUUID := λ _, inr (ErrorString "clock") |}.

#[local] Existing Instance demo.

(** [Start] at time [0]. *)
Definition start (agents : list string) (txs : list nat) : State :=
  Start_state (ext:=demo) 0 agents txs.

Definition two_agents : list string := ["agent-a"; "agent-b"]%string.
Definition one_agent : list string := ["agent-a"]%string.

(** Two agents, the events [1; 0]: the loop places the request of [1]
    on both queues, skips [0], finds the source exhausted and closes the
    queues; then both workers drain their queue and return. *)
Definition full_run : list Label :=
  replicate 11 LIngest ++
  [LStream 0; LStream 0; LReply 0 (inl 1); LStream 0;
   LStream 1; LStream 1; LReply 1 (inr (ErrorString "timeout")); LStream 1].

Definition full_state : State :=
  Eval vm_compute in state_after (start two_agents [1; 0]) full_run.

(** One agent whose first call is in flight. *)
Definition call_in_flight : list Label :=
  [LIngest; LIngest; LIngest; LStream 0; LStream 0].

Definition in_flight_state : State :=
  Eval vm_compute in state_after (start one_agent [1; 2]) call_in_flight.



Definition placed_state : State :=
  Eval vm_compute in state_after (start two_agents [1; 0]) (replicate 4 LIngest).

Definition received_state : State :=
  Eval vm_compute in state_after (start one_agent [0; 1]) [LIngest].




(** With one agent and 102 events: the worker takes one request while
    the queue is full and later returns on the cancelled context; the
    ingestion goroutine, past its test, waits to send on the full queue
    for ever, although the source is exhausted. *)
Definition stuck_run : list Label :=
  replicate 402 LIngest ++
  [LStream 0; LIngest; LIngest; LIngest; LIngest; LCancel Canceled; LStream 0].

Definition stuck_state : State :=
  Eval vm_compute in state_after (start one_agent (replicate 102 1)) stuck_run.



End Demo.

(** * The rest of the service: constructor, [Start] on a service, [Stop] *)

(** What [NewTxAnalyzerService] takes from other packages:
    [context.Context], [grpc.ClientConn] with [grpc.Dial] (called with
    [WithInsecure] and [WithBlock]) and the generated
    [protocol.NewAgentClient].  [Dial n target] is the result of the
    [n]-th call of [grpc.Dial] the constructor makes, which is for
    [target]. *)
Class Grpc {ext : Externals} := {
  context_Context : Type;
  ClientConn : Type;
  Dial : nat -> string -> ClientConn + error;
  NewAgentClient : ClientConn -> AgentClient }.

Section Service.
Context {ext : Externals} {grpc : Grpc}.

(** [TxAnalyzerServiceConfig]; [cfg_TxChannel] is what the channel
    [TxChannel] delivers before it is closed. *)
Record TxAnalyzerServiceConfig := mkConfig {
  cfg_TxChannel : list TransactionEvent;
  AgentAddresses : list string }.

Record TxAnalyzerService := mkService {
  cfg : TxAnalyzerServiceConfig;
  ctx : context_Context;
  agents : list AgentClient }.

(** [fmt.Sprintf("%s:50051", addr)] *)
Definition dial_target (addr : string) : string := (addr +:+ ":50051")%string.

(** How the constructor ends: it returns the service, or [log.Fatalf]
    writes its line and exits the process. *)
Inductive Constructed :=
  | Returned (t : TxAnalyzerService)
  | Fatalf (format : string) (addr : string) (err : error).

(** The loop of lines 114-120 from the address it has reached:
    [dialled] are the targets dialled so far, [clients] the clients
    appended so far. *)
Fixpoint connect (dialled : list string) (clients : list AgentClient) (addrs : list string)
    : list string * (list AgentClient + string * error) :=
  match addrs with
  | [] => (dialled, inl clients)
  | addr :: rest =>
      let target := dial_target addr in
      match Dial (length dialled) target with
      | inr err => (dialled ++ [target], inr (addr, err))
      | inl conn => connect (dialled ++ [target]) (clients ++ [NewAgentClient conn]) rest
      end
  end.

(** [NewTxAnalyzerService(ctx, cfg)] (lines 112-126), with the targets
    it dialled. *)
Definition NewTxAnalyzerService (ctx : context_Context) (cfg : TxAnalyzerServiceConfig)
    : list string * Constructed :=
  match connect [] [] (AgentAddresses cfg) with
  | (dialled, inl clients) => (dialled, Returned (mkService cfg ctx clients))
  | (dialled, inr (addr, err)) =>
      (dialled, Fatalf "did not connect to %s, %v"%string addr err)
  end.

(** [t.Start()] called at time [t0]: the state its goroutines start
    from. *)
Definition Start (t0 : Z) (t : TxAnalyzerService) : State :=
  Start_state t0 (agents t) (cfg_TxChannel (cfg t)).

(** [t.Stop()] (lines 103-106): one log line; the result is [nil]. *)
Definition Stop (s : State) : option error * State :=
  (None, emit (EvLogInfof "Stopping %s"%string [Name]) s).

(** [s] with [ev] put at position [n] of its trace. *)
Definition logged_at (n : nat) (ev : Effect) (s : State) : State :=
  mkState (now s) (ctx_err s) (grp_err s) (TxChannel s) (heap s) (uuid_calls s)
          (agentChannels s) (streams s) (ingest s)
          (take n (trace s) ++ ev :: drop n (trace s)).

End Service.

(** ** More vocabulary *)

Section MoreVocabulary.
Context {ext : Externals}.

(** The ingestion goroutine waits to send [p] on channel [k], which is
    full. *)
Definition waiting_on_full (p : ptr) (k : nat) (s : State) : Prop :=
  ingest s = ISend p k ∧
  ∃ c, agentChannels s !! k = Some c ∧ closed c = false ∧ length (buf c) = queue_capacity.

(** [agent.Evaluate] is called (line 38). *)
Definition is_evaluate (ev : Effect) : bool :=
  match ev with EvEvaluate _ _ _ => true | _ => false end.

(** The line a stream logs when a call has returned (lines 41, 47 and
    50). *)
Definition is_result_log (ev : Effect) : bool :=
  match ev with
  | EvLogError msg _ =>
      bool_decide (msg = "error invoking agent"%string ∨
                   msg = "error marshaling response"%string)
  | EvLogInfof _ [] => true
  | _ => false
  end.

(** Number of effects of [tr] for which [f] holds. *)
Definition count_if (f : Effect → bool) (tr : list Effect) : nat :=
  sum_list_with (λ ev, if f ev then 1 else 0) tr.

(** Calls that have not returned. *)
Definition in_flight (s : State) : nat :=
  sum_list_with (λ w, match w with WCall _ _ _ => 1 | _ => 0 end) (pcs s).

(** A state of a service whose event source delivers nothing. *)
Record idle (s : State) : Prop := {
  idle_source : TxChannel s = [];
  idle_heap : heap s = [];
  idle_grp : grp_err s = None;
  idle_ingest : ingest s = IRange ∨ (∃ k, ingest s = IDefer k (ExitReturn None)) ∨
                ingest s = IDone None;
  idle_queues : ∀ i c, agentChannels s !! i = Some c → buf c = [];
  idle_streams : ∀ i w, pcs s !! i = Some w → w = WRange ∨ w = WDone None;
  idle_trace : ∀ i, sends i (trace s) = [] ∧ calls i (trace s) = [] }.

End MoreVocabulary.

Section ConversionVocabulary.
Context {ext : Externals}.

(** The errors logged as translation failures (line 84), in order. *)
Definition conversion_errors (tr : list Effect) : list error :=
  omap (λ ev, match ev with
              | EvLogError msg e =>
                  if decide (msg = "error converting tx event to message"%string)
                  then Some e else None
              | _ => None
              end) tr.

(** The errors of the events that do not translate, in order. *)
Definition untranslatable (txs : list TransactionEvent) : list error :=
  omap (λ tx, match ToMessage tx with inr e => Some e | inl _ => None end) txs.

(** The translation failures logged are those of the events the loop is
    done with. *)
Record conversion_inv (txs : list TransactionEvent) (s : State) : Prop := {
  conversion_pending : ∀ l, pending s = Some l →
    untranslatable txs = conversion_errors (trace s) ++ untranslatable l;
  conversion_prefix : conversion_errors (trace s) `prefix_of` untranslatable txs }.

End ConversionVocabulary.

(** * The notifier: notifier/src/notificationController.ts

    The controller turns Forta alerts into a Telegram message and a
    Discord embed.  Its pure functions are Rocq functions; the handler
    of [POST /forta] is a computation over the list of what it has done
    to the outside so far. *)

Module Notifier.
Import Strings.Ascii.

(** ** JavaScript strings

    A string is the sequence of the bytes of its UTF-8 encoding.  The
    patterns [toEscapeMsg] looks for are single ASCII characters, which
    occur in the encoding exactly where they occur in the text. *)

(** [str.replace(/c/g, r)], for a pattern that is the one character
    [c]: every occurrence is replaced. *)
Fixpoint replace_all (c : ascii) (r : string) (str : string) : string :=
  match str with
  | EmptyString => EmptyString
  | String x rest =>
      if Ascii.eqb x c then r +:+ replace_all c r rest
      else String x (replace_all c r rest)
  end.

(** [str.replace(c, r)], for a pattern that is the string of the one
    character [c]: only the first occurrence is replaced. *)
Fixpoint replace_first (c : ascii) (r : string) (str : string) : string :=
  match str with
  | EmptyString => EmptyString
  | String x rest =>
      if Ascii.eqb x c then r +:+ rest
      else String x (replace_first c r rest)
  end.

(** [toEscapeMsg] (lines 82-84) *)
Definition toEscapeMsg (str : string) : string :=
  replace_all "." "\."
    (replace_all "`" "\`"
       (replace_first "~" "\~"
          (replace_all "-" "\-"
             (replace_all "_" "\_" str)))).

(** The characters [toEscapeMsg] escapes wherever they occur. *)
Definition always_escaped (x : ascii) : bool :=
  (Ascii.eqb x "_" || Ascii.eqb x "-" || Ascii.eqb x "`" || Ascii.eqb x ".")%bool.

(** One pass over the string, left to right; [seen] tells whether a
    tilde was met before. *)
Fixpoint escape_from (seen : bool) (str : string) : string :=
  match str with
  | EmptyString => EmptyString
  | String x rest =>
      if always_escaped x then String "\" (String x (escape_from seen rest))
      else if Ascii.eqb x "~" then
        if seen then String x (escape_from true rest)
        else String "\" (String x (escape_from true rest))
      else String x (escape_from seen rest)
  end.

(** [c] occurs in [str]. *)
Fixpoint occurs (c : ascii) (str : string) : bool :=
  match str with
  | EmptyString => false
  | String x rest => (Ascii.eqb x c || occurs c rest)%bool
  end.

(** Number of characters of [str] that are always escaped. *)
Fixpoint count_escaped (str : string) : nat :=
  match str with
  | EmptyString => 0
  | String x rest => (if always_escaped x then 1 else 0) + count_escaped rest
  end.

(** Every character of [str] for which [f] holds comes right after a
    backslash: [prev] is the character before [str]. *)
Fixpoint guarded (f : ascii → bool) (prev : ascii) (str : string) : bool :=
  match str with
  | EmptyString => true
  | String x rest => (implb (f x) (Ascii.eqb prev "\") && guarded f x rest)%bool
  end.

(** The replacements of [toEscapeMsg] on the rest of a string: once a
    tilde was replaced ([seen]), the replacement of the first tilde has
    nothing left to do. *)
Definition later_passes (seen : bool) (str : string) : string :=
  replace_all "." "\."
    (replace_all "`" "\`"
       ((if seen then id else replace_first "~" "\~")
          (replace_all "-" "\-"
             (replace_all "_" "\_" str)))).

End Notifier.

Module NotifierController.
Import Strings.Ascii Notifier.

(** ** Exceptions and results *)

Inductive Exception :=
  | Error (message : string)                 (* [throw new Error(message)] *)
  | Thrown (e : string).                     (* thrown or rejected by a library *)

Inductive Result (A : Type) :=
  | Ok (a : A)
  | Throw (e : Exception).
Arguments Ok {A} a.
Arguments Throw {A} e.

(** ** Alerts (lines 17-73)

    Of the fields [FortaAlertBase] declares, those the controller reads.
    [metadata] is an object indexed by strings; a key it does not have
    reads as [undefined], here [None]. *)
Record Source := mkSource { transactionHash : string }.

Record FortaAlert := mkAlert {
  alertId : string;
  description : string;
  source : Source;
  metadata : string → option string }.

(** [enum FortaAlertIds] *)
Definition FortaAlertIds_market : string := "AE-COMET-EVENT".
Definition FortaAlertIds_oracle : string := "AE-COMP-CTOKEN-PRICE-REJECTED".

(** [discordAlertTitles[alertId]] on the object's own properties. *)
Definition discordAlertTitles (alertId : string) : option string :=
  if decide (alertId = FortaAlertIds_market) then Some "Comet Market Monitor (Simulation)"%string
  else if decide (alertId = FortaAlertIds_oracle) then Some "Oracle Price Monitor (Simulation)"%string
  else None.

Definition chatId : string := "-858059392".
Definition explorerUrl : string := "https://securityalliance.dev/".

(** A value in a template literal: [undefined] prints as its name. *)
Definition in_template (v : option string) : string := default "undefined"%string v.

(** The escape [\n] of a template literal. *)
Definition LF : string := String "010" EmptyString.

Record EmbedAuthor := mkAuthor { author_name : string; iconURL : string; author_url : string }.

(** ** Other packages

    JavaScript numbers with [parseFloat], [parseInt], [toFixed] and the
    [Intl.NumberFormat] of lines 86-93; [BigNumber.from] and
    [utils.formatUnits] of ethers ([BigNumber]s are the integers);
    the Telegram bot, discord.js's [EmbedBuilder] and [axios.post].
    A call to the outside takes the number of effects before it, which
    stands for the moment of the call. *)
Class Libraries := {
  Number : Type;
  parseFloat : option string -> Number;
  parseInt : option string -> Number;
  Number_toFixed : Number -> nat -> string;
  usdFormatter_format : Number -> string;
  BigNumber_from : option string -> Result Z;
  utils_formatUnits : Z -> nat -> string;
  TelegramBot : Type;
  TelegramMessage : Type;
  new_TelegramBot : string -> TelegramBot;
  bot_sendMessage : nat -> TelegramBot -> string -> string -> string -> Result TelegramMessage;
  EmbedBuilder : Type;
  APIEmbed : Type;
  new_EmbedBuilder : EmbedBuilder;
  setColor : Z -> EmbedBuilder -> Result EmbedBuilder;
  setTitle : option string -> EmbedBuilder -> Result EmbedBuilder;
  setURL : string -> EmbedBuilder -> Result EmbedBuilder;
  setAuthor : EmbedAuthor -> EmbedBuilder -> Result EmbedBuilder;
  setDescription : string -> EmbedBuilder -> Result EmbedBuilder;
  setTimestamp : nat -> EmbedBuilder -> Result EmbedBuilder;
  EmbedBuilder_data : EmbedBuilder -> APIEmbed;
  axios_post : nat -> string -> list APIEmbed -> Result Z }.

(** [process.env] as the module reads it when it is loaded. *)
Record ProcessEnv := mkEnv {
  TELEGRAMKEY : option string;
  DISCORDWEBHOOK : option string }.

(** The string of a variable that is set and not empty: what [if (v)]
    lets through. *)
Definition truthy (v : option string) : option string :=
  match v with
  | Some (String c rest) => Some (String c rest)
  | _ => None
  end.

Section Controller.
Context {lib : Libraries}.

(** What the controller does to the outside, in order. *)
Inductive IO :=
  | ConsoleLog (alert : FortaAlert)
  | ConsoleWarn (msg : string)
  | TelegramSend (chat message parse_mode : string)
  | DiscordPost (url : string) (embeds : list APIEmbed).

(** A computation: from the effects so far to a result, or an
    exception, and the effects after it. *)
Definition M (A : Type) : Type := list IO → Result A * list IO.

Definition ret {A} (a : A) : M A := λ tr, (Ok a, tr).
Definition throw {A} (e : Exception) : M A := λ tr, (Throw e, tr).
Definition bind {A B} (m : M A) (f : A → M B) : M B :=
  λ tr, match m tr with
        | (Ok a, tr') => f a tr'
        | (Throw e, tr') => (Throw e, tr')
        end.
Definition lift {A} (r : Result A) : M A := λ tr, (r, tr).
Definition io (ev : IO) : M unit := λ tr, (Ok (), tr ++ [ev]).

(** Sequencing of calls that may throw. *)
Definition and_then {A B} (r : Result A) (f : A → Result B) : Result B :=
  match r with
  | Ok a => f a
  | Throw e => Throw e
  end.

(** [formatPrice] (lines 75-80) *)
Definition formatPrice (price : option string) : Result string :=
  and_then (BigNumber_from price) (λ priceBn,
    let remainder := (priceBn `mod` 100000)%Z in
    let formatted := utils_formatUnits (priceBn - remainder) 6 in
    Ok formatted).

(** [formatTelegramAlert] (lines 95-115) *)
Definition formatTelegramAlert (alert : FortaAlert) : Result string :=
  if decide (alertId alert = FortaAlertIds_market) then
    let formattedAlert :=
      "️💰 [TX](" +:+ explorerUrl +:+ "tx/" +:+ transactionHash (source alert) +:+ ") "
      +:+ description alert +:+ " " +:+ LF +:+ " Asset: "
      +:+ in_template (metadata alert "symbol") +:+ LF +:+ " Amount: "
      +:+ Number_toFixed (parseFloat (metadata alert "amount")) 2 +:+ LF +:+ " Value: "
      +:+ usdFormatter_format (parseInt (metadata alert "usdValue")) in
    Ok (toEscapeMsg formattedAlert)
  else if decide (alertId alert = FortaAlertIds_oracle) then
    and_then (formatPrice (metadata alert "anchorPrice")) (λ anchor,
    and_then (formatPrice (metadata alert "reporterPrice")) (λ reporter,
      let formattedAlert :=
        "⚠️ [TX](" +:+ explorerUrl +:+ "tx/" +:+ transactionHash (source alert)
        +:+ ") Reported price of " +:+ in_template (metadata alert "cTokenAddress")
        +:+ " was rejected" +:+ LF +:+ " Anchor Price: " +:+ anchor
        +:+ LF +:+ " Reporter Price: " +:+ reporter in
      Ok (toEscapeMsg formattedAlert)))
  else Throw (Error "Invalid alert type").

(** [formatDiscordAlert] (lines 117-131); [n] stands for the moment of
    [setTimestamp()]. *)
Definition formatDiscordAlert (n : nat) (alert : FortaAlert) : Result APIEmbed :=
  and_then (setColor 0x0099ff new_EmbedBuilder) (λ b,
  and_then (setTitle (discordAlertTitles (alertId alert)) b) (λ b,
  and_then (setURL (explorerUrl +:+ "tx/" +:+ transactionHash (source alert)) b) (λ b,
  and_then (setAuthor (mkAuthor "Forta (Simulation)"
         "https://github-production-user-asset-6210df.s3.amazonaws.com/4401444/250399693-e75d751d-5442-4bbb-b166-845e17c7393a.png"
         "https://securityalliance.dev/") b) (λ b,
  and_then (formatTelegramAlert alert) (λ text,
  and_then (setDescription text b) (λ b,
  and_then (setTimestamp n b) (λ embed,
    Ok (EmbedBuilder_data embed)))))))).

Section WithEnv.
Variable env : ProcessEnv.

(** Lines 7-13: the bot exists when the key is set and not empty. *)
Definition botKey : option string := TELEGRAMKEY env.
Definition bot : option TelegramBot := new_TelegramBot <$> truthy botKey.
Definition discordWebhookId : option string := DISCORDWEBHOOK env.

(** [sendTelegramAlert] (lines 133-137) *)
Definition sendTelegramAlert (chat message : string) : M TelegramMessage :=
  match bot with
  | None => throw (Error "NO BOT KEY")
  | Some b =>
      λ tr, (bot_sendMessage (length tr) b chat message "MarkdownV2",
             tr ++ [TelegramSend chat message "MarkdownV2"])
  end.

(** [sendDiscordAlert] (lines 139-153) *)
Definition sendDiscordAlert (webhook : string) (embeds : list APIEmbed) : M Z :=
  let url := "https://discord.com/api/webhooks/" +:+ webhook in
  λ tr, (axios_post (length tr) url embeds, tr ++ [DiscordPost url embeds]).

(** The body of the loop of [post] (lines 189-194). *)
Definition notify (alert : FortaAlert) : M unit :=
  bind (io (ConsoleLog alert)) (λ _,
  bind (lift (formatTelegramAlert alert)) (λ message,
  bind (sendTelegramAlert chatId message) (λ _,
  bind (λ tr, (formatDiscordAlert (length tr) alert, tr)) (λ discordMessage,
  match truthy discordWebhookId with
  | Some webhook => bind (sendDiscordAlert webhook [discordMessage]) (λ _, ret ())
  | None => io (ConsoleWarn "NO WEBHOOK ID")
  end)))).

(** [for await (const alert of alerts)] *)
Fixpoint notify_all (alerts : list FortaAlert) : M unit :=
  match alerts with
  | [] => ret ()
  | alert :: rest => bind (notify alert) (λ _, notify_all rest)
  end.

(** [NotificationController.post] (lines 186-197) *)
Definition post (alerts : list FortaAlert) : M string :=
  bind (notify_all alerts) (λ _, ret "This action sent alert"%string).

(** What one alert leaves behind when it is sent as [message] and
    [embed]. *)
Definition sent (alert : FortaAlert) (message : string) (embed : APIEmbed) : list IO :=
  [ConsoleLog alert; TelegramSend chatId message "MarkdownV2";
   match truthy discordWebhookId with
   | Some webhook => DiscordPost ("https://discord.com/api/webhooks/" +:+ webhook) [embed]
   | None => ConsoleWarn "NO WEBHOOK ID"
   end].

End WithEnv.
End Controller.
End NotifierController.

(** ** More concrete inputs *)

Module Examples.
Import Demo.
#[local] Existing Instance demo.

(** Connections and clients are the targets dialled; the host [down]
    refuses the connection. *)
Definition demo_grpc : Grpc (ext:=demo) :=
  @Build_Grpc demo unit string
    (λ _ target,
       if decide (target = "down:50051"%string)
       then inr (ErrorString "connection refused")
       else inl target)
    (λ conn, conn).

Definition two_addresses : TxAnalyzerServiceConfig (ext:=demo) :=
  mkConfig (ext:=demo) [1; 0] ["agent-a"; "agent-b"]%string.

Definition one_down : TxAnalyzerServiceConfig (ext:=demo) :=
  mkConfig (ext:=demo) [1; 0] ["agent-a"; "down"; "agent-b"]%string.

Definition two_clients : TxAnalyzerService (ext:=demo) (grpc:=demo_grpc) :=
  mkService (ext:=demo) (grpc:=demo_grpc) two_addresses ()
            ["agent-a:50051"; "agent-b:50051"]%string.

(** No event, two agents, the context cancelled at once: the queues
    are closed and the workers return. *)
Definition idle_run : list Label :=
  [LCancel Canceled; LIngest; LIngest; LIngest; LIngest; LStream 0; LStream 1].


(** Two agents, the event [1]: its request is placed on the first
    queue and not yet on the second. *)
Definition sending_state : State :=
  Eval vm_compute in state_after (start two_agents [1; 0]) [LIngest; LIngest; LIngest].


End Examples.

Module NotifierExamples.
Import Strings.Ascii Notifier NotifierController.

(** Numbers are integers, every send succeeds, the embed builder
    accepts everything, and only the price [1234567] is a number. *)
Definition demo_lib : Libraries := {|
  Number := Z;
  parseFloat := λ _, 0%Z;
  parseInt := λ _, 0%Z;
  Number_toFixed := λ _ _, "0.00"%string;
  usdFormatter_format := λ _, "$0.00"%string;
  BigNumber_from := λ v,
    if decide (v = Some "1234567"%string) then Ok 1234567%Z
    else Throw (Thrown "invalid BigNumber string");
  utils_formatUnits := λ v _, if decide (v = 1200000%Z) then "1.2"%string else "?"%string;
  TelegramBot := string;
  TelegramMessage := unit;
  new_TelegramBot := λ key, key;
  bot_sendMessage := λ _ _ _ _ _, Ok ();
  EmbedBuilder := list string;
  APIEmbed := list string;
  new_EmbedBuilder := [];
  setColor := λ _ b, Ok b;
  setTitle := λ t b, Ok (b ++ [default "undefined"%string t]);
  setURL := λ u b, Ok (b ++ [u]);
  setAuthor := λ _ b, Ok b;
  setDescription := λ d b, Ok (b ++ [d]);
  setTimestamp := λ _ b, Ok b;
  EmbedBuilder_data := λ b, b;
  axios_post := λ _ _ _, Ok 204%Z |}.

Definition market_alert : FortaAlert :=
  mkAlert FortaAlertIds_market "Supply of USDC" (mkSource "0xabc")
    (λ key, if decide (key = "symbol"%string) then Some "USDC"%string
            else if decide (key = "amount"%string) then Some "12.5"%string
            else if decide (key = "usdValue"%string) then Some "12"%string
            else None).

Definition oracle_alert : FortaAlert :=
  mkAlert FortaAlertIds_oracle "Price rejected" (mkSource "0xdef")
    (λ key, if decide (key = "anchorPrice"%string) then Some "1234567"%string
            else if decide (key = "reporterPrice"%string) then Some "1234567"%string
            else if decide (key = "cTokenAddress"%string) then Some "0x~c_1"%string
            else None).

Definition unknown_alert : FortaAlert :=
  mkAlert "AE-OTHER" "?" (mkSource "0x0") (λ _, None).

Definition with_bot : ProcessEnv := mkEnv (Some "key"%string) (Some "hook"%string).
Definition without_bot : ProcessEnv := mkEnv (Some ""%string) (Some "hook"%string).

End NotifierExamples.

#[local] Arguments seq : simpl never.

(** * Runs and what they preserve *)

Section Runs.
Context {ext : Externals}.

(** ** Schedules *)

Lemma run_app s a b : run s (a ++ b) = run s a ≫= λ s', run s' b.
Proof.
  revert s. induction a as [|l a IH]; intros s; simpl; [done|].
  destruct (step s l); simpl; [apply IH | done].
Qed.

Lemma run_snoc s a l s' :
  run s (a ++ [l]) = Some s' ↔ ∃ s1, run s a = Some s1 ∧ step s1 l = Some s'.
Proof.
  rewrite run_app. split.
  - destruct (run s a) as [s1|]; simpl; [|done].
    destruct (step s1 l) as [s2|] eqn:E; [|done]. intros [= <-]. eauto.
  - intros (s1 & -> & E). simpl. by rewrite E.
Qed.

(** Induction over the states a schedule passes through. *)
Lemma run_ind (P : list Label → State → Prop) s0 :
  P [] s0 →
  (∀ sched s l s', run s0 sched = Some s → P sched s → step s l = Some s' → P (sched ++ [l]) s') →
  ∀ sched s, run s0 sched = Some s → P sched s.
Proof.
  intros H0 Hstep sched. induction sched as [|l sched IH] using rev_ind; intros s.
  - by intros [= <-].
  - intros (s1 & Hr & Hs)%run_snoc. eauto.
Qed.

(** ** Reading the trace *)

Lemma sends_snoc i tr ev : sends i (tr ++ [ev]) = sends i tr ++ sends i [ev].
Proof. apply omap_app. Qed.
Lemma calls_snoc i tr ev : calls i (tr ++ [ev]) = calls i tr ++ calls i [ev].
Proof. apply omap_app. Qed.
Lemma callers_snoc p tr ev : callers p (tr ++ [ev]) = callers p tr ++ callers p [ev].
Proof. apply omap_app. Qed.
Lemma closes_snoc i tr ev : closes i (tr ++ [ev]) = closes i tr + closes i [ev].
Proof. unfold closes. by rewrite omap_app, length_app. Qed.
Lemma returned_errors_snoc tr ev :
  returned_errors (tr ++ [ev]) = returned_errors tr ++ returned_errors [ev].
Proof. apply omap_app. Qed.

(** ** Program counters up to the state of the call context *)

Lemma erase_cancel_child c w : erase (cancel_child c w) = erase w.
Proof. by destruct w as [| |? ? []|]. Qed.

Lemma erase_fire_timer t w : erase (fire_timer t w) = erase w.
Proof. destruct w as [| |? ? []|]; simpl; try done. by case_match. Qed.

Lemma pcs_emit ev s : pcs (emit ev s) = pcs s.
Proof. done. Qed.
Lemma pcs_set_ingest pc s : pcs (set_ingest pc s) = pcs s.
Proof. done. Qed.
Lemma pcs_set_chan i c s : pcs (set_chan i c s) = pcs s.
Proof. done. Qed.
Lemma pcs_set_TxChannel l s : pcs (set_TxChannel l s) = pcs s.
Proof. done. Qed.
Lemma pcs_alloc r s : pcs (alloc r s) = pcs s.
Proof. done. Qed.

Lemma pcs_set_stream i w s : pcs (set_stream i w s) = <[i := erase w]> (pcs s).
Proof. unfold pcs. simpl. by rewrite list_fmap_insert. Qed.

Lemma pcs_cancel c s : pcs (cancel c s) = pcs s.
Proof.
  unfold cancel, pcs. destruct (ctx_err s); simpl; [done|].
  rewrite <- list_fmap_compose. apply list_fmap_ext. intros ? w _. apply erase_cancel_child.
Qed.

Lemma pcs_tick d s : pcs (tick d s) = pcs s.
Proof.
  unfold tick, pcs. simpl.
  rewrite <- list_fmap_compose. apply list_fmap_ext. intros ? w _. apply erase_fire_timer.
Qed.

Lemma pcs_grp_done t r s : pcs (grp_done t r s) = pcs s.
Proof.
  unfold grp_done. destruct r as [e|]; [|done].
  simpl. destruct (grp_err s); [done|]. by rewrite pcs_cancel.
Qed.

Lemma pcs_lookup s i w : pcs s !! i = Some w ↔ ∃ w0, streams s !! i = Some w0 ∧ w = erase w0.
Proof. unfold pcs. rewrite list_lookup_fmap_Some. naive_solver. Qed.

Lemma pcs_done s i r : pcs s !! i = Some (WDone r) ↔ streams s !! i = Some (WDone r).
Proof.
  rewrite pcs_lookup. split.
  - intros (w0 & ? & Hw). by destruct w0; simplify_eq/=.
  - intros ?. by exists (WDone r).
Qed.

Lemma streams_pcs s i w : streams s !! i = Some w → pcs s !! i = Some (erase w).
Proof. intros. apply pcs_lookup. eauto. Qed.

Lemma length_pcs s : length (pcs s) = length (streams s).
Proof. unfold pcs. by rewrite length_fmap. Qed.

(** ** What the group operations leave alone *)

Lemma cancel_fields c s :
  now (cancel c s) = now s ∧ grp_err (cancel c s) = grp_err s ∧
  TxChannel (cancel c s) = TxChannel s ∧ heap (cancel c s) = heap s ∧
  uuid_calls (cancel c s) = uuid_calls s ∧ agentChannels (cancel c s) = agentChannels s ∧
  ingest (cancel c s) = ingest s ∧ trace (cancel c s) = trace s.
Proof. unfold cancel. by destruct (ctx_err s). Qed.

Lemma cancel_ctx_err c s :
  ctx_err (cancel c s) = Some (default c (ctx_err s)).
Proof. unfold cancel. by destruct (ctx_err s) eqn:E. Qed.

Lemma grp_done_fields t r s :
  now (grp_done t r s) = now s ∧
  TxChannel (grp_done t r s) = TxChannel s ∧ heap (grp_done t r s) = heap s ∧
  uuid_calls (grp_done t r s) = uuid_calls s ∧
  agentChannels (grp_done t r s) = agentChannels s ∧
  ingest (grp_done t r s) = ingest s ∧ trace (grp_done t r s) = trace s ++ [EvReturn t r].
Proof.
  unfold grp_done. destruct r as [e|]; [|done]. simpl.
  destruct (grp_err s); [done|].
  pose proof (cancel_fields Canceled (set_grp_err (Some e) (emit (EvReturn t (Some e)) s))).
  naive_solver.
Qed.

Lemma grp_done_grp_err t r s :
  grp_err (grp_done t r s) = match grp_err s with Some e => Some e | None => r end.
Proof.
  unfold grp_done. destruct r as [e|]; simpl; [|by destruct (grp_err s)].
  destruct (grp_err s) eqn:E; [done|].
  by destruct (cancel_fields Canceled (set_grp_err (Some e) (emit (EvReturn t (Some e)) s)))
    as (_ & -> & _).
Qed.

Lemma grp_done_ctx_err t r s c :
  ctx_err s = Some c → ctx_err (grp_done t r s) = Some c.
Proof.
  intros Hc. unfold grp_done. destruct r as [e|]; [|done]. simpl.
  destruct (grp_err s); [done|]. rewrite cancel_ctx_err. simpl. by rewrite Hc.
Qed.


Lemma ingest_grp_done t r s : ingest (grp_done t r s) = ingest s.
Proof. apply grp_done_fields. Qed.
Lemma ingest_cancel c s : ingest (cancel c s) = ingest s.
Proof. apply cancel_fields. Qed.
Lemma grp_err_cancel c s : grp_err (cancel c s) = grp_err s.
Proof. apply cancel_fields. Qed.

Lemma now_tick d s : now (tick d s) = (now s + Z.of_N d)%Z.
Proof. done. Qed.

Lemma agentChannels_cancel c s : agentChannels (cancel c s) = agentChannels s.
Proof. apply cancel_fields. Qed.
Lemma agentChannels_grp_done t r s : agentChannels (grp_done t r s) = agentChannels s.
Proof. apply grp_done_fields. Qed.
Lemma agentChannels_tick d s : agentChannels (tick d s) = agentChannels s.
Proof. done. Qed.
Lemma trace_cancel c s : trace (cancel c s) = trace s.
Proof. apply cancel_fields. Qed.
Lemma trace_grp_done t r s : trace (grp_done t r s) = trace s ++ [EvReturn t r].
Proof. apply grp_done_fields. Qed.
Lemma trace_tick d s : trace (tick d s) = trace s.
Proof. done. Qed.
Lemma heap_cancel c s : heap (cancel c s) = heap s.
Proof. apply cancel_fields. Qed.
Lemma heap_grp_done t r s : heap (grp_done t r s) = heap s.
Proof. apply grp_done_fields. Qed.
Lemma heap_tick d s : heap (tick d s) = heap s.
Proof. done. Qed.
Lemma TxChannel_cancel c s : TxChannel (cancel c s) = TxChannel s.
Proof. apply cancel_fields. Qed.
Lemma TxChannel_grp_done t r s : TxChannel (grp_done t r s) = TxChannel s.
Proof. apply grp_done_fields. Qed.
Lemma TxChannel_tick d s : TxChannel (tick d s) = TxChannel s.
Proof. done. Qed.
Lemma uuid_calls_cancel c s : uuid_calls (cancel c s) = uuid_calls s.
Proof. apply cancel_fields. Qed.
Lemma uuid_calls_grp_done t r s : uuid_calls (grp_done t r s) = uuid_calls s.
Proof. apply grp_done_fields. Qed.
Lemma uuid_calls_tick d s : uuid_calls (tick d s) = uuid_calls s.
Proof. done. Qed.
Lemma ingest_tick d s : ingest (tick d s) = ingest s.
Proof. done. Qed.
Lemma grp_err_tick d s : grp_err (tick d s) = grp_err s.
Proof. done. Qed.
Lemma ctx_err_tick d s : ctx_err (tick d s) = ctx_err s.
Proof. done. Qed.
Lemma now_cancel c s : now (cancel c s) = now s.
Proof. apply cancel_fields. Qed.
Lemma now_grp_done t r s : now (grp_done t r s) = now s.
Proof. apply grp_done_fields. Qed.

End Runs.

(** ** Tactics for one step *)

(** One step of [step], split into the branches of the goroutine that
    moves. *)
Ltac step_cases Hs :=
  unfold step, step_ingest, step_stream, step_reply in Hs;
  repeat case_match; simplify_eq/=.

Ltac norm_pcs :=
  repeat first [rewrite pcs_cancel | rewrite pcs_tick | rewrite pcs_grp_done
               | rewrite pcs_set_stream | rewrite pcs_emit | rewrite pcs_set_ingest
               | rewrite pcs_set_chan | rewrite pcs_set_TxChannel | rewrite pcs_alloc
               | rewrite grp_done_grp_err].

Ltac split_insert :=
  repeat match goal with
  | H : <[_:=_]> _ !! _ = Some _ |- _ =>
      apply list_lookup_insert_Some in H; destruct H as [(? & ? & ?)|(? & ?)]; simplify_eq
  end; simplify_eq/=.

(** Rewrite a state after a step into its fields before the step. *)
Ltac norm :=
  norm_pcs;
  rewrite ?agentChannels_cancel, ?agentChannels_grp_done, ?agentChannels_tick,
    ?trace_cancel, ?trace_grp_done, ?trace_tick, ?heap_cancel, ?heap_grp_done, ?heap_tick,
    ?TxChannel_cancel, ?TxChannel_grp_done, ?TxChannel_tick,
    ?uuid_calls_cancel, ?uuid_calls_grp_done, ?uuid_calls_tick,
    ?ingest_cancel, ?ingest_grp_done, ?ingest_tick, ?grp_err_cancel, ?grp_err_tick,
    ?ctx_err_tick, ?now_cancel, ?now_grp_done, ?now_tick;
  simpl.

Ltac single_simpl f :=
  repeat match goal with
  | |- context [f ?i [?ev]] =>
      let r := eval cbn in (f i [ev]) in change (f i [ev]) with r
  end.

Ltac trace_simpl :=
  rewrite ?sends_snoc, ?calls_snoc, ?callers_snoc, ?closes_snoc, ?returned_errors_snoc;
  single_simpl sends; single_simpl calls; single_simpl callers; single_simpl closes;
  repeat match goal with
  | |- context [returned_errors [?ev]] =>
      let r := eval cbn in (returned_errors [ev]) in change (returned_errors [ev]) with r
  end;
  rewrite ?app_nil_r, ?Nat.add_0_r.

Ltac use_ingest :=
  repeat match goal with
  | E : ingest ?s = _, H : context [ingest ?s] |- _ =>
      lazymatch H with E => fail | _ => rewrite E in H; simpl in H end
  end.

(** * Invariants of a run *)

Section Invariants.
Context {ext : Externals}.

(** ** Case analysis of one step *)

(** The group's context stays done once it is done. *)
Lemma ctx_err_step s l s' c :
  step s l = Some s' → ctx_err s = Some c → ctx_err s' = Some c.
Proof.
  intros Hs Hc. unfold step, step_ingest, step_stream, step_reply in Hs.
  repeat case_match; simplify_eq/=; try done;
    try (by rewrite cancel_ctx_err, Hc);
    try (by apply grp_done_ctx_err).
Qed.

(** ** Errors come from the context *)

Lemma ctx_error_of_step s l s' e :
  step s l = Some s' → ctx_error_of s e → ctx_error_of s' e.
Proof. intros Hs (c & -> & Hc). exists c. eauto using ctx_err_step. Qed.

Lemma ctx_error_of_intro s c : ctx_err s = Some c → ctx_error_of s (ContextError c).
Proof. intros. by exists c. Qed.

Lemma errors_inv_step s l s' :
  step s l = Some s' → errors_inv s → errors_inv s'.
Proof.
  intros Hs [Hg Hw Hi].
  assert (Hmono : ∀ e, ctx_error_of s e → ctx_error_of s' e)
    by eauto using ctx_error_of_step.
  assert (Hc : ∀ c, ctx_err s = Some c → ctx_error_of s' (ContextError c))
    by (intros; apply Hmono; by apply ctx_error_of_intro).
  revert Hmono Hc. step_cases Hs; intros Hmono Hc; split; norm_pcs;
    rewrite ?ingest_grp_done, ?ingest_cancel, ?grp_err_cancel; simpl; intros;
    repeat case_match; split_insert; eauto.
Qed.

(** ** One stream and one channel per agent *)

Lemma shape_inv_step n s l s' :
  step s l = Some s' → shape_inv n s → shape_inv n s'.
Proof.
  intros Hs [H1 H2]. step_cases Hs; split; norm; rewrite ?length_insert; done.
Qed.

(** ** Closing *)

Lemma closing_inv_step s l s' :
  step s l = Some s' → closing_inv s → closing_inv s'.
Proof.
  intros Hs [Hn Hu]. step_cases Hs; split; norm; intros; try done.
  all: try specialize (Hu eq_refl).
  all: use_ingest; trace_simpl; rewrite ?length_insert, ?Nat.add_0_r; eauto.
  all: try (rewrite list_lookup_insert; case_decide; destruct_and?; simplify_eq/=).
  all: split_insert.
  all: try (rewrite Hn; repeat case_match; simplify_eq/=; try done).
  all: try match goal with
       | Hl : agentChannels _ !! ?i = Some ?c |- _ => pose proof (Hu i c Hl)
       end.
  all: repeat match goal with
       | Hl : agentChannels _ !! _ = Some _ |- _ => apply lookup_lt_Some in Hl
       | Hl : agentChannels _ !! _ = None |- _ => apply lookup_ge_None_1 in Hl
       end.
  all: repeat case_bool_decide; repeat case_decide; simplify_eq/=; try done; try lia;
    try congruence.
  all: exfalso; naive_solver lia.
Qed.

(** ** Queues *)


Lemma queue_last_step s l s' :
  step s l = Some s' → queue_inv s → ∀ p k, ingest s' = ISend p k → S p = length (heap s').
Proof.
  intros Hs [Hl _ _] p k. step_cases Hs; norm; intros; simplify_eq/=;
    rewrite ?length_app; simpl; eauto; lia.
Qed.

Lemma queue_sends_step s l s' :
  step s l = Some s' → closing_inv s → queue_inv s →
  ∀ i c, agentChannels s' !! i = Some c → sends i (trace s') = seq 0 (placed s' i).
Proof.
  intros Hs [_ Hu] [Hl Hsd _] j cj. specialize (Hu ltac:(by step_cases Hs)).
  step_cases Hs; unfold placed in *; norm; intros; trace_simpl; split_insert.
  all: repeat match goal with
       | Hl : agentChannels _ !! ?i = Some ?c |- _ =>
          lazymatch goal with
          | _ : sends i _ = _ |- _ => fail
          | _ => pose proof (Hsd i c Hl)
          end
       end.
  all: use_ingest; rewrite ?length_app; simpl; rewrite ?Nat.add_1_r; try done.
  all: try specialize (Hl _ _ eq_refl).
  all: repeat match goal with
       | Hl : agentChannels _ !! ?i = Some ?c |- _ =>
          try (rewrite (Hu i c Hl) in *; discriminate); apply lookup_lt_Some in Hl
       | Hl : agentChannels _ !! _ = None |- _ => apply lookup_ge_None_1 in Hl
       end.
  all: repeat case_decide; try lia; simplify_eq/=; rewrite ?app_nil_r; try congruence.
  all: repeat match goal with Hx : sends _ _ = _ |- _ => rewrite Hx; clear Hx end;
    rewrite ?seq_S; done.
Qed.
Lemma placed_ext s s' i :
  ingest s' = ingest s → heap s' = heap s → placed s' i = placed s i.
Proof. unfold placed. by intros -> ->. Qed.

Lemma stream_queue_send cs w c n :
  closed c = false → stream_queue cs w c n →
  stream_queue cs w (mkChan (buf c ++ [n]) false) (S n).
Proof.
  intros Hc. unfold stream_queue. rewrite seq_S. simpl.
  destruct w as [| | |[e|]]; simpl.
  - intros <-. by rewrite !app_assoc.
  - intros <-. by rewrite <- !app_assoc.
  - intros <-. by rewrite !app_assoc.
  - intros (d & <-). exists d. by rewrite !app_assoc.
  - intros (? & _). congruence.
Qed.

Lemma stream_queue_close cs w c n :
  stream_queue cs w c n → stream_queue cs w (mkChan (buf c) true) n.
Proof. unfold stream_queue. destruct w as [| | |[e|]]; simpl; naive_solver. Qed.

Lemma queue_calls_step s l s' :
  step s l = Some s' → closing_inv s → queue_inv s →
  ∀ i w c, pcs s' !! i = Some w → agentChannels s' !! i = Some c →
    length (buf c) ≤ queue_capacity ∧ stream_queue (calls i (trace s')) w c (placed s' i).
Proof.
  intros Hs [_ Hu] [Hl _ Hq] j wj cj. specialize (Hu ltac:(by step_cases Hs)).
  destruct l as [c|d| |i|i r].
  - (* the parent context is cancelled *)
    step_cases Hs. norm. rewrite (placed_ext s) by (by norm). apply Hq.
  - (* time passes *)
    step_cases Hs. norm. rewrite (placed_ext s) by (by norm). apply Hq.
  - (* ingestion *)
    step_cases Hs; unfold placed in *; norm; intros; trace_simpl; split_insert.
    all: repeat match goal with
         | Hw : pcs _ !! ?i = Some ?w, Hc : agentChannels _ !! ?i = Some ?c |- _ =>
            lazymatch goal with
            | _ : length (buf c) ≤ _ ∧ stream_queue (calls i _) w c _ |- _ => fail
            | _ => pose proof (Hq i w c Hw Hc)
            end
         end.
    all: use_ingest; rewrite ?length_app; simpl; rewrite ?Nat.add_1_r; try done.
    all: try specialize (Hl _ _ eq_refl).
    all: repeat match goal with
         | Hc : agentChannels _ !! ?i = Some ?c |- _ =>
            try (rewrite (Hu i c Hc) in *; discriminate); apply lookup_lt_Some in Hc
         | Hc : agentChannels _ !! _ = None |- _ => apply lookup_ge_None_1 in Hc
         end.
    all: destruct_and?; split; [lia|].
    all: repeat case_decide; try lia; simplify_eq/=; rewrite ?app_nil_r; try done.
    all: try (rewrite <- Hl; done).
    all: eauto using stream_queue_send, stream_queue_close.
  - (* a stream moves *)
    step_cases Hs; norm; rewrite (placed_ext s) by (by norm); intros; trace_simpl; split_insert.
    all: repeat match goal with
         | Hw : streams _ !! _ = Some _ |- _ => apply streams_pcs in Hw; simpl in Hw
         end.
    all: repeat match goal with
         | Hw : pcs _ !! ?i = Some ?w, Hc : agentChannels _ !! ?i = Some ?c |- _ =>
            lazymatch goal with
            | _ : length (buf c) ≤ _ ∧ stream_queue (calls i _) w c _ |- _ => fail
            | _ => pose proof (Hq i w c Hw Hc)
            end
         end.
    all: try congruence.
    all: destruct_and?.
    all: repeat match goal with c : Chan |- _ => destruct c end; simplify_eq/=.
    all: split; [lia|].
    all: repeat case_decide; simplify_eq/=; rewrite ?app_nil_r; try done.
    all: unfold stream_queue, cur in *; simpl in *; rewrite ?app_nil_r in *; try done.
    all: rewrite <- ?app_assoc; simpl; try done.
    by eexists [_].
  - (* a call returns *)
    step_cases Hs; norm; rewrite (placed_ext s) by (by norm); intros; trace_simpl; split_insert.
    all: repeat match goal with
         | Hw : streams _ !! _ = Some _ |- _ => apply streams_pcs in Hw; simpl in Hw
         end.
    all: repeat match goal with
         | Hw : pcs _ !! ?i = Some ?w, Hc : agentChannels _ !! ?i = Some ?c |- _ =>
            lazymatch goal with
            | _ : length (buf c) ≤ _ ∧ stream_queue (calls i _) w c _ |- _ => fail
            | _ => pose proof (Hq i w c Hw Hc)
            end
         end.
    all: try done.
Qed.

Lemma queue_inv_step s l s' :
  step s l = Some s' → closing_inv s → queue_inv s → queue_inv s'.
Proof.
  intros Hs Hc Hq. split.
  - eauto using queue_last_step.
  - eauto using queue_sends_step.
  - eauto using queue_calls_step.
Qed.

(** ** The heap against the event source *)

Lemma tag_Ret n msg request :
  tag n msg = Ret request →
  ∃ id, NewUUID n = inl id ∧ request = mkRequest (UUID_String id) msg.
Proof. unfold tag, uuid_Must. destruct (NewUUID n); [|done]. intros [= <-]. eauto. Qed.

Lemma tag_Panic n msg v : tag n msg = Panic v → NewUUID n = inr v.
Proof. unfold tag, uuid_Must. destruct (NewUUID n); [done|]. by intros [= <-]. Qed.

(** Only the ingestion goroutine touches the source, the heap and its
    own program counter. *)
Lemma step_ingest_fields s l s' :
  step s l = Some s' → l ≠ LIngest →
  ingest s' = ingest s ∧ TxChannel s' = TxChannel s ∧ heap s' = heap s ∧
  uuid_calls s' = uuid_calls s.
Proof. intros Hs Hl. step_cases Hs; norm; done. Qed.

Lemma heap_inv_step txs s l s' :
  step s l = Some s' → heap_inv txs s → heap_inv txs s'.
Proof.
  intros Hs [Hu Hp Hx He Hy].
  destruct l as [c|d| |i|i r];
    try (destruct (step_ingest_fields _ _ _ Hs) as (Hi & Ht & Hh & Hn); [done|];
         split; unfold pending; rewrite ?Hi, ?Ht, ?Hh, ?Hn; done).
  unfold pending in *.
  step_cases Hs; split; norm; intros; use_ingest; simplify_eq/=;
    rewrite ?length_app, ?fmap_app; simpl; rewrite ?Nat.add_1_r; eauto.
  all: unfold pending in *; simpl in *; simplify_eq; try specialize (Hp _ eq_refl);
    try specialize (He _ eq_refl); simpl in Hp, He;
    repeat match goal with
    | E : ToMessage _ = _ |- _ => rewrite E in Hp, He
    | E : tag (uuid_calls ?s) _ = _, Hn : uuid_calls ?s = _ |- _ =>
        rewrite Hn in E; rewrite E in Hp
    end.
  all: try (rewrite Hp, <- ?app_assoc; done).
  all: try (rewrite ingest_grp_done in *; done).
  all: try match goal with
       | E : tag _ _ = Ret _ |- _ => apply tag_Ret in E as (id & _ & ->)
       end; simpl.
  all: try (rewrite He, <- ?app_assoc; try done).
  - rewrite Hp. apply prefix_app, (prefix_cons _ [] _), prefix_nil.
  - apply prefix_app, (prefix_cons _ [] _), prefix_nil.
Qed.

(** ** The kept error is the first one returned *)

Lemma returned_step s l s' e : step s l = Some s' → returned s e → returned s' e.
Proof.
  unfold returned. intros Hs [Hi|(i & Hw)].
  - step_cases Hs; norm; auto; congruence.
  - right. exists i. step_cases Hs; norm; auto.
    all: match goal with Hx : streams _ !! ?j = Some _ |- _ =>
           apply streams_pcs in Hx; simpl in Hx;
           rewrite list_lookup_insert_ne; [done|congruence]
         end.
Qed.

Lemma first_error_inv_step s l s' :
  step s l = Some s' → first_error_inv s → first_error_inv s'.
Proof.
  intros Hs [Hg Ho]. split.
  - step_cases Hs; norm; trace_simpl; try done.
    all: rewrite Hg; repeat case_match; simplify_eq/=; rewrite ?app_nil_r; try done.
    all: try (by destruct (returned_errors (trace s))).
  - intros e He. destruct (grp_err s) as [e0|] eqn:Hge.
    + assert (e = e0) as ->; [|eauto using returned_step].
      revert He. step_cases Hs; norm; rewrite ?Hge; congruence.
    + clear Ho Hg. unfold returned. revert He.
      step_cases Hs; norm; rewrite ?Hge; try congruence; intros [= ->].
      * by left.
      * right. eexists. apply list_lookup_insert_eq.
        match goal with Hx : streams _ !! _ = Some _ |- _ =>
          apply streams_pcs, lookup_lt_Some in Hx; done end.
Qed.

(** ** Call contexts *)

Lemma streams_grp_done t r s :
  (∀ e, r = Some e → ctx_err s ≠ None) →
  streams (grp_done t r s) = streams s ∧ ctx_err (grp_done t r s) = ctx_err s.
Proof.
  intros Hr. unfold grp_done. destruct r as [e|]; [|done]. simpl.
  destruct (grp_err s); [done|]. unfold cancel. simpl.
  destruct (ctx_err s) eqn:E; [done|]. by destruct (Hr e).
Qed.

Lemma timing_inv_step s l s' :
  step s l = Some s' → errors_inv s → timing_inv s → timing_inv s'.
Proof.
  unfold timing_inv. intros Hs [_ _ He] Ht j p dl cerr.
  assert (0 < call_timeout)%Z by done.
  destruct l as [c|d| |i|i r].
  - (* the parent context is cancelled *)
    step_cases Hs. unfold call_ctx_ok in *. unfold cancel.
    destruct (ctx_err s) eqn:Hc; simpl; [rewrite Hc; apply Ht|].
    rewrite list_lookup_fmap_Some. intros (w0 & Hf & Hw).
    destruct w0 as [| |p0 dl0 [cc|]|]; simplify_eq/=; destruct (Ht _ _ _ _ Hw) as [? ?];
      split; auto. naive_solver.
  - (* time passes *)
    step_cases Hs. unfold call_ctx_ok in *. unfold tick. simpl.
    rewrite list_lookup_fmap_Some. intros (w0 & Hf & Hw).
    destruct w0 as [| |p0 dl0 [cc|]|]; simpl in Hf; try case_match; simplify_eq/=;
      destruct (Ht _ _ _ _ Hw) as [? ?]; (split; [lia|]); try naive_solver lia.
  - (* ingestion *)
    step_cases Hs; unfold call_ctx_ok in *; simpl; try apply Ht.
    match goal with |- context [grp_done ?t ?r ?s0] =>
      destruct (streams_grp_done t r s0) as [-> ->] end;
      [|rewrite now_grp_done; apply Ht].
    intros e ->. use_ingest. destruct (He e eq_refl) as (c & _ & Hc). simpl. congruence.
  - (* a stream moves *)
    step_cases Hs; unfold call_ctx_ok in *; simpl.
    all: try match goal with |- context [grp_done ?t ?r ?s0] =>
      destruct (streams_grp_done t r s0) as [-> ->]; [simpl; congruence|] end.
    all: rewrite ?now_grp_done; simpl; intros; split_insert; eauto.
    split; [lia|]. split; [done|lia].
  - (* a call returns *)
    step_cases Hs; unfold call_ctx_ok in *; simpl; intros; split_insert; eauto.
Qed.

(** ** Panics *)

Lemma panic_inv_step s l s' :
  step s l = Some s' → closing_inv s → panic_inv s → panic_inv s'.
Proof.
  unfold panic_inv. intros Hs [_ Hu] Hp. specialize (Hu ltac:(by step_cases Hs)).
  step_cases Hs; norm; intros; use_ingest; eauto; try done.
  all: try match goal with
       | E : tag _ _ = Panic _ |- _ => apply tag_Panic in E; eauto
       end.
  all: match goal with
       | Hc : agentChannels _ !! ?i = Some ?c |- _ =>
          rewrite (Hu i c Hc) in *; try case_bool_decide; try done; lia
       end.
Qed.

(** ** Only configured agents are called *)

Lemma calls_range_inv_step s l s' :
  step s l = Some s' → calls_range_inv s → calls_range_inv s'.
Proof.
  unfold calls_range_inv. intros Hs Hr j.
  step_cases Hs; norm; rewrite ?length_insert; intros; trace_simpl; eauto.
  case_decide; simplify_eq/=; rewrite ?app_nil_r; eauto.
  match goal with Hw : streams _ !! _ = Some _ |- _ =>
    apply streams_pcs, lookup_lt_Some in Hw; lia end.
Qed.
End Invariants.

(** * Reachable states *)

Section Reachable.
Context {ext : Externals}.
Variables (t0 : Z) (agents : list AgentClient) (txs : list TransactionEvent).

Lemma Inv_Start : Inv agents txs (Start_state t0 agents txs).
Proof.
  split.
  - split; unfold pcs; simpl; by rewrite !length_fmap.
  - split; unfold pcs; simpl; try done.
    intros i e. rewrite !list_lookup_fmap. by destruct (agents !! i).
  - split; simpl.
    + intros i. rewrite list_lookup_fmap. by destruct (agents !! i).
    + intros _ i c. rewrite list_lookup_fmap. destruct (agents !! i); [|done].
      by intros [= <-].
  - split; simpl; try done.
    intros i w c. unfold pcs. simpl. rewrite !list_lookup_fmap.
    destruct (agents !! i); simpl; [|done]. intros ? ?; simplify_eq/=.
    split; [unfold queue_capacity; lia|done].
  - split; simpl; try done.
    + by intros l [= <-].
    + apply prefix_nil.
    + by intros l [= <-].
    + apply prefix_nil.
  - by split.
  - intros i p dl cerr. simpl. rewrite list_lookup_fmap. by destruct (agents !! i).
  - done.
  - done.
Qed.

Lemma Inv_step s l s' : step s l = Some s' → Inv agents txs s → Inv agents txs s'.
Proof.
  intros Hs [? ? ? ? ? ? ? ? ?]. split;
    eauto using shape_inv_step, errors_inv_step, closing_inv_step, queue_inv_step,
      heap_inv_step, first_error_inv_step, timing_inv_step, panic_inv_step,
      calls_range_inv_step.
Qed.

Lemma Inv_run sched s : run (Start_state t0 agents txs) sched = Some s → Inv agents txs s.
Proof.
  revert sched s. apply run_ind; [apply Inv_Start|]. eauto using Inv_step.
Qed.


End Reachable.

(** * Termination and progress *)

Section Liveness.
Context {ext : Externals}.

Lemma sum_list_with_insert {A} (f : A → nat) (l : list A) i x y :
  l !! i = Some x →
  sum_list_with f (<[i:=y]> l) + f x = sum_list_with f l + f y.
Proof.
  revert i. induction l as [|a l IH]; intros [|i] Hi; simplify_eq/=; [lia|].
  specialize (IH _ Hi). lia.
Qed.





(** ** Progress *)


Section Progress.
Variables (agents : list AgentClient) (txs : list TransactionEvent).



End Progress.
End Liveness.

(** * Facts about whole runs *)

Section Facts.
Context {ext : Externals}.

(** ** Cancellation *)

(** Only a cancellation of the service's context sets the group's
    context: when a goroutine returns an error the context is done
    already. *)
Lemma ctx_err_step_eq s l s' :
  errors_inv s → step s l = Some s' →
  ctx_err s' = match l with
               | LCancel c => Some (default c (ctx_err s))
               | _ => ctx_err s
               end.
Proof.
  intros [_ _ He] Hs. step_cases Hs; try done.
  - apply cancel_ctx_err.
  - match goal with |- context [grp_done ?t ?r ?s0] =>
      destruct (streams_grp_done t r s0) as [_ ->] end; [|done].
    intros e ->. use_ingest. destruct (He e eq_refl) as (c & _ & Hc). simpl. congruence.
  - match goal with |- context [grp_done ?t ?r ?s0] =>
      destruct (streams_grp_done t r s0) as [_ ->] end; [simpl; congruence|done].
Qed.

Lemma ctx_err_run s sched s' :
  (∀ s1 a b, sched = a ++ b → run s a = Some s1 → errors_inv s1) →
  run s sched = Some s' →
  ctx_err s' = match ctx_err s with Some c => Some c | None => head (cancels sched) end.
Proof.
  revert s'. induction sched as [|l sched IH] using rev_ind; intros s' Hinv.
  - intros [= <-]. simpl. by destruct (ctx_err s).
  - intros (s1 & Hr & Hs)%run_snoc.
    rewrite (ctx_err_step_eq s1 l s') by eauto using app_nil_r.
    rewrite (IH s1) by (try done; intros s2 a b ->; apply (Hinv s2 a (b ++ [l]));
                        by rewrite app_assoc).
    unfold cancels. rewrite omap_app. fold (cancels sched).
    destruct l, (ctx_err s), (cancels sched); simpl; rewrite ?app_nil_r; done.
Qed.

(** ** The heap and the trace only grow *)

Lemma heap_step s l s' : step s l = Some s' → heap s `prefix_of` heap s'.
Proof. intros Hs. step_cases Hs; norm; try done. by apply prefix_app_r. Qed.

Lemma heap_run s sched s' : run s sched = Some s' → heap s `prefix_of` heap s'.
Proof.
  revert s. induction sched as [|l sched IH]; intros s; simpl.
  - by intros [= <-].
  - destruct (step s l) as [s1|] eqn:Hs; [|done]. intros Hr.
    etrans; [by eapply heap_step|eauto].
Qed.

(** ** No call starts once the context is done *)



End Facts.

(** ** Counting calls *)

Section Counting.








End Counting.

(** * Properties of the dispatcher *)

Section Properties.
Context {ext : Externals}.

(** ** Auxiliary facts *)

Lemma placed_le s i : queue_inv s → placed s i ≤ length (heap s).
Proof.
  intros [Hl _ _]. unfold placed. destruct (ingest s) eqn:Hi; try done.
  specialize (Hl _ _ eq_refl). case_decide; lia.
Qed.

Lemma seq_prefix m n : m ≤ n → seq 0 m `prefix_of` seq 0 n.
Proof.
  intros Hmn. exists (seq m (n - m)).
  replace n with (m + (n - m)) at 1 by lia. by rewrite seq_app.
Qed.



Lemma calls_prefix_placed s i :
  shape_inv (length (pcs s)) s → queue_inv s → calls_range_inv s →
  calls i (trace s) `prefix_of` seq 0 (placed s i).
Proof.
  intros [_ Hlc] [_ _ Hq] Hr.
  destruct (pcs s !! i) as [w|] eqn:Hw.
  2:{ rewrite Hr by (by apply lookup_ge_None_1). apply prefix_nil. }
  destruct (agentChannels s !! i) as [c|] eqn:Hc.
  2:{ apply lookup_ge_None_1 in Hc. apply lookup_lt_Some in Hw. lia. }
  destruct (Hq i w c Hw Hc) as [_ Hsq]. unfold stream_queue in Hsq.
  destruct w as [| | |[e|]].
  - rewrite <- Hsq. by apply prefix_app_r.
  - rewrite <- Hsq. by apply prefix_app_r.
  - rewrite <- Hsq. by apply prefix_app_r.
  - destruct Hsq as (d & <-). by apply prefix_app_r.
  - destruct Hsq as (_ & _ & ->). done.
Qed.





(** ** Agent calls that fail (C4) and responses that do not serialise (C10) *)

(** What [Start] returns is decided by the cancellation of the service's
    context alone. *)
Lemma Start_result t0 agents txs sched s r :
  run (Start_state t0 agents txs) sched = Some s → Wait s = Some r →
  r = None ∨ ∃ c, head (cancels sched) = Some c ∧ r = Some (ContextError c).
Proof.
  intros Hr Hw. unfold Wait in Hw. destruct (all_done s); [|done].
  injection Hw as <-. destruct (grp_err s) as [e|] eqn:He; [right|by left].
  destruct (inv_errors _ _ _ (Inv_run _ _ _ _ _ Hr)) as [Hg _ _].
  destruct (Hg e He) as (c & -> & Hc). exists c. split; [|done].
  rewrite (ctx_err_run _ _ _ (λ s1 a b _ Ha, inv_errors _ _ _ (Inv_run _ _ _ _ _ Ha)) Hr) in Hc.
  done.
Qed.


(** C4. A failed agent call (timeout, transport error or rejection: any
    error returned by [agent.Evaluate]) is logged and the worker goes
    back to its loop head for the next queued request: its loop does not
    end, no other worker, no queue and nothing of the group changes, and
    what [Start] returns is never an agent's error but [nil] or the error
    of the cancelled context. *)
Theorem agent_failure_is_local t0 agents txs sched s :
  run (Start_state t0 agents txs) sched = Some s →
  (∀ i p dl cerr err,
     crashed s = false → streams s !! i = Some (WCall p dl cerr) →
     ∃ s', step s (LReply i (inr err)) = Some s' ∧
       logged_and_continued s i (EvLogError "error invoking agent" err) s') ∧
  (∀ r, Wait s = Some r →
     r = None ∨ ∃ c, head (cancels sched) = Some c ∧ r = Some (ContextError c)).
Proof.
  intros Hr. split; [|eauto using Start_result].
  intros i p dl cerr err Hcr Hw. eexists. split.
  - unfold step, step_reply. by rewrite Hcr, Hw.
  - done.
Qed.

(** C10. When [MarshalToString] fails on the response of a successful
    call, the worker logs the error and goes back to its loop head for
    the next queued request: its loop does not end, nothing else changes,
    and what [Start] returns is never the serialisation error. *)
Theorem marshal_failure_is_local t0 agents txs sched s :
  run (Start_state t0 agents txs) sched = Some s →
  (∀ i p dl cerr resp err,
     crashed s = false → streams s !! i = Some (WCall p dl cerr) →
     MarshalToString resp = inr err →
     ∃ s', step s (LReply i (inl resp)) = Some s' ∧
       logged_and_continued s i (EvLogError "error marshaling response" err) s') ∧
  (∀ r, Wait s = Some r →
     r = None ∨ ∃ c, head (cancels sched) = Some c ∧ r = Some (ContextError c)).
Proof.
  intros Hr. split; [|eauto using Start_result].
  intros i p dl cerr resp err Hcr Hw Hm. eexists. split.
  - unfold step, step_reply. by rewrite Hcr, Hw, Hm.
  - done.
Qed.

(** C5. When the translation of an event fails, the error is logged, no
    request is allocated or placed on any queue for it, and the loop is
    back at its head with the source unchanged, so that its next step
    receives the next event. *)
Theorem translation_failure_skips_event s tx err :
  ingest s = ICheck tx → ctx_err s = None → ToMessage tx = inr err →
  ∃ s', step s LIngest = Some s' ∧
    trace s' = trace s ++ [EvLogError "error converting tx event to message" err] ∧
    heap s' = heap s ∧ agentChannels s' = agentChannels s ∧ streams s' = streams s ∧
    grp_err s' = grp_err s ∧ ctx_err s' = ctx_err s ∧
    ingest s' = IRange ∧ TxChannel s' = TxChannel s ∧
    (∀ n rest, requests_from n (tx :: rest) = requests_from n rest) ∧
    (∀ next rest, TxChannel s = next :: rest →
       ∃ s'', step s' LIngest = Some s'' ∧ ingest s'' = ICheck next ∧ TxChannel s'' = rest).
Proof.
  intros Hi Hc Ht. eexists. split.
  - unfold step, crashed, step_ingest. by rewrite Hi, Hc, Ht.
  - repeat split; try done.
    + intros n rest. simpl. by rewrite Ht.
    + intros next rest Hn. eexists. split.
      * unfold step, crashed, step_ingest. simpl. by rewrite Hn.
      * done.
Qed.


(** ** Order of delivery (C8) *)



(** ** Fan-out (C1) *)




(** ** One request object for all queues (C2) *)

(** C2 (amended). The queues do not hold copies: for every event that
    translates the loop allocates one request, and what it places on
    every queue is the pointer to it.  The [k]-th placement on any queue
    is the pointer [k], every pointer placed or queued is allocated, and
    an allocated request is never written again: later states extend the
    heap. *)
Theorem queues_share_one_request t0 agents txs sched s :
  run (Start_state t0 agents txs) sched = Some s →
  heap s `prefix_of` requests_from 0 txs ∧
  (∀ i c k p, agentChannels s !! i = Some c → sends i (trace s) !! k = Some p →
     p = k ∧ p < length (heap s)) ∧
  (∀ i c p, agentChannels s !! i = Some c → p ∈ buf c → p < length (heap s)) ∧
  (∀ sched' s', run s sched' = Some s' → heap s `prefix_of` heap s').
Proof.
  intros Hr. pose proof (Inv_run _ _ _ _ _ Hr) as [[Hs1 Hs2] _ _ Hqi Hh _ _ _ _].
  pose proof Hqi as [Hql Hqs Hq]. split; [|split; [|split]].
  - apply Hh.
  - intros i c k p Hc Hk. rewrite (Hqs i c) in Hk by done. apply lookup_seq in Hk.
    pose proof (placed_le s i Hqi). lia.
  - intros i c p Hc Hp.
    destruct (pcs s !! i) as [w|] eqn:Hw.
    2:{ apply lookup_ge_None_1 in Hw. apply lookup_lt_Some in Hc. lia. }
    destruct (Hq i w c Hw Hc) as [_ Hsq]. pose proof (placed_le s i Hqi).
    assert (p ∈ seq 0 (placed s i)) as Hin; [|apply elem_of_seq in Hin; lia].
    unfold stream_queue in Hsq. destruct w as [| | |[e|]].
    + rewrite <- Hsq, !elem_of_app. auto.
    + rewrite <- Hsq, !elem_of_app. auto.
    + rewrite <- Hsq, !elem_of_app. auto.
    + destruct Hsq as (d & <-). rewrite !elem_of_app. auto.
    + destruct Hsq as (_ & Hb & _). rewrite Hb in Hp. by apply elem_of_nil in Hp.
  - intros sched' s'. apply heap_run.
Qed.

(** ** Shutdown when the source is exhausted (C3) *)





(** ** Cancellation (C6) *)


(** Once the ingestion goroutine waits to send on a full queue whose
    worker has returned, it waits for ever: the queues are not closed and
    [Start] does not return, whatever happens next. *)
Lemma blocked_on_send_step s l s' :
  blocked_on_send s → step s l = Some s' → blocked_on_send s'.
Proof.
  intros (p & k & c & e & Hi & Hc & Hcl & Hlen & Hw) Hs.
  exists p, k, c, e.
  assert (Hpcs : pcs s' !! k = Some (WDone (Some e))).
  { apply pcs_done in Hw. step_cases Hs; norm; try done.
    all: match goal with Hx : streams _ !! ?j = Some _ |- _ =>
           rewrite list_lookup_insert_ne; [done|];
           intros ->; apply pcs_done in Hw; congruence
         end. }
  apply pcs_done in Hpcs.
  step_cases Hs; norm; repeat split; try done; try congruence.
  all: try (exfalso; lia).
  all: match goal with Hx : streams _ !! ?j = Some _ |- _ =>
         rewrite list_lookup_insert_ne; [done|]; intros ->; congruence
       end.
Qed.

Lemma blocked_on_send_forever s sched s' :
  blocked_on_send s → run s sched = Some s' →
  blocked_on_send s' ∧ Wait s' = None ∧ step s' LIngest = None.
Proof.
  intros Hb Hr. assert (blocked_on_send s') as Hb'.
  { revert s Hb Hr. induction sched as [|l sched IH]; intros s Hb; simpl.
    - by intros [= <-].
    - destruct (step s l) as [s1|] eqn:Hs; [|done]. eauto using blocked_on_send_step. }
  split; [done|]. destruct Hb' as (p & k & c & e & Hi & Hc & Hcl & Hlen & Hw).
  split.
  - unfold Wait, all_done. by rewrite Hi.
  - unfold step, crashed, step_ingest. rewrite Hi, Hc, Hcl.
    case_decide; [lia|done].
Qed.

(** ** The context of a call in flight (C7) *)


End Properties.

(** * Properties of the constructor, of [Stop] and of the queues *)

Section ServiceFacts.
Context {ext : Externals} {grpc : Grpc}.

(** What the loop has done when it ends: every address dialled and a
    client appended for each, or the first refusal and nothing after
    it. *)
Lemma connect_spec addrs : ∀ dialled clients d r,
  connect dialled clients addrs = (d, r) →
  match r with
  | inl cl =>
      d = dialled ++ (dial_target <$> addrs) ∧
      ∃ conns, cl = clients ++ (NewAgentClient <$> conns) ∧
        length conns = length addrs ∧
        ∀ k addr, addrs !! k = Some addr →
          ∃ conn, conns !! k = Some conn ∧
                  Dial (length dialled + k) (dial_target addr) = inl conn
  | inr (addr, err) =>
      ∃ k, addrs !! k = Some addr ∧
        Dial (length dialled + k) (dial_target addr) = inr err ∧
        d = dialled ++ (dial_target <$> take (S k) addrs) ∧
        ∀ j a, j < k → addrs !! j = Some a →
          ∃ conn, Dial (length dialled + j) (dial_target a) = inl conn
  end.
Proof.
  induction addrs as [|addr rest IH]; intros dialled clients d r; simpl.
  - intros [= <- <-]. split; [by rewrite app_nil_r|].
    exists []. by rewrite app_nil_r.
  - destruct (Dial (length dialled) (dial_target addr)) as [conn|err] eqn:Hd.
    + intros Hc. specialize (IH _ _ _ _ Hc). rewrite length_app in IH. simpl in IH.
      destruct r as [cl|[a err]].
      * destruct IH as (-> & conns & -> & Hl & Hk). split; [by rewrite <- app_assoc|].
        exists (conn :: conns). split; [by rewrite <- app_assoc|]. split; [simpl; lia|].
        intros [|k] a Ha; simplify_eq/=.
        -- exists conn. by rewrite Nat.add_0_r.
        -- destruct (Hk k a Ha) as (c & ? & Hdk). exists c. split; [done|].
           by replace (length dialled + S k) with (length dialled + 1 + k) by lia.
      * destruct IH as (k & Ha & Hdk & -> & Hj). exists (S k). split; [done|].
        split; [by replace (length dialled + S k) with (length dialled + 1 + k) by lia|].
        split; [by rewrite <- app_assoc|].
        intros [|j] a' Hlt Ha'; simplify_eq/=.
        -- exists conn. by rewrite Nat.add_0_r.
        -- destruct (Hj j a' ltac:(lia) Ha') as (c & Hc'). exists c.
           by replace (length dialled + S j) with (length dialled + 1 + j) by lia.
    + intros [= <- <-]. exists 0. rewrite Nat.add_0_r. repeat split; try done.
      intros j a Hj. lia.
Qed.

(** Nothing is placed on a channel that does not exist. *)
Lemma sends_range_step s l s' i :
  length (agentChannels s) ≤ i → sends i (trace s) = [] →
  step s l = Some s' → sends i (trace s') = [].
Proof.
  intros Hi Hs Hst. step_cases Hst; norm; trace_simpl; try done.
  match goal with |- context [decide (?k = i)] => destruct (decide (k = i)) as [->|] end;
    [|by rewrite Hs].
  match goal with H : agentChannels _ !! _ = Some _ |- _ => apply lookup_lt_Some in H end. lia.
Qed.

Lemma sends_range t0 ags txs sched s i :
  run (Start_state t0 ags txs) sched = Some s →
  length ags ≤ i → sends i (trace s) = [].
Proof.
  intros Hr Hi. revert sched s Hr. apply run_ind; [done|].
  intros sched s l s' Hr IH Hs. eapply sends_range_step; [|done..].
  destruct (inv_shape _ _ _ (Inv_run _ _ _ _ _ Hr)) as [_ ->]. done.
Qed.

(** X1. When every configured address can be dialled,
    [NewTxAnalyzerService] returns a service that keeps [cfg] and [ctx]
    and has one agent client per address, in the order of the
    addresses: client [k] is made from the connection dialled to
    [AgentAddresses[k] + ":50051"]. *)
Theorem NewTxAnalyzerService_returns c cf :
  (∀ k addr, AgentAddresses cf !! k = Some addr →
     ∃ conn, Dial k (dial_target addr) = inl conn) →
  ∃ t, NewTxAnalyzerService c cf = (dial_target <$> AgentAddresses cf, Returned t) ∧
    cfg t = cf ∧ ctx t = c ∧
    length (agents t) = length (AgentAddresses cf) ∧
    ∀ k addr, AgentAddresses cf !! k = Some addr →
      ∃ conn, Dial k (dial_target addr) = inl conn ∧
              agents t !! k = Some (NewAgentClient conn).
Proof.
  intros Hall. unfold NewTxAnalyzerService.
  destruct (connect [] [] (AgentAddresses cf)) as [d r] eqn:Hc.
  apply connect_spec in Hc. destruct r as [cl|[a err]]; simpl in Hc.
  - destruct Hc as (-> & conns & -> & Hl & Hk). eexists. split; [done|]. simpl.
    split; [done|]. split; [done|]. split; [by rewrite length_fmap|].
    intros k addr Ha. destruct (Hk k addr Ha) as (conn & Hconn & Hd).
    exists conn. split; [done|]. by rewrite list_lookup_fmap, Hconn.
  - destruct Hc as (k & Ha & Hd & _). destruct (Hall k a Ha) as (conn & Hd').
    congruence.
Qed.

(** X2. When the dial of an address fails and those before it
    succeeded, [NewTxAnalyzerService] ends in [log.Fatalf] naming that
    address and its error; the addresses after it are never dialled. *)
Theorem NewTxAnalyzerService_exits c cf k addr err :
  AgentAddresses cf !! k = Some addr →
  Dial k (dial_target addr) = inr err →
  (∀ j a, j < k → AgentAddresses cf !! j = Some a →
     ∃ conn, Dial j (dial_target a) = inl conn) →
  NewTxAnalyzerService c cf =
    (dial_target <$> take (S k) (AgentAddresses cf),
     Fatalf "did not connect to %s, %v" addr err).
Proof.
  intros Ha Hd Hbefore. unfold NewTxAnalyzerService.
  destruct (connect [] [] (AgentAddresses cf)) as [d r] eqn:Hc.
  apply connect_spec in Hc. destruct r as [cl|[a' err']]; simpl in Hc.
  - destruct Hc as (_ & conns & _ & _ & Hk). destruct (Hk k addr Ha) as (conn & _ & Hd').
    congruence.
  - destruct Hc as (k' & Ha' & Hd' & -> & Hbefore'). simpl in *.
    destruct (Nat.lt_trichotomy k k') as [Hlt|[->|Hgt]].
    + destruct (Hbefore' k addr Hlt Ha) as (conn & Hconn). congruence.
    + simplify_eq. rewrite Hd in Hd'. by injection Hd' as <-.
    + destruct (Hbefore k' a' Hgt Ha') as (conn & Hconn). congruence.
Qed.

(** X3. [Start] on the service [NewTxAnalyzerService] returned runs
    one stream and one queue per configured address, nothing is ever
    placed on or called for an index beyond them, and the requests it
    allocates are those of the configured event source. *)
Theorem Start_one_worker_per_address c cf d t t0 sched s :
  NewTxAnalyzerService c cf = (d, Returned t) →
  run (Start t0 t) sched = Some s →
  length (streams s) = length (AgentAddresses cf) ∧
  length (agentChannels s) = length (AgentAddresses cf) ∧
  (∀ i, length (AgentAddresses cf) ≤ i → sends i (trace s) = [] ∧ calls i (trace s) = []) ∧
  heap s `prefix_of` requests_from 0 (cfg_TxChannel cf).
Proof.
  intros Hnew Hr.
  assert (cfg t = cf ∧ length (agents t) = length (AgentAddresses cf)) as [<- Hlen].
  { unfold NewTxAnalyzerService in Hnew.
    destruct (connect [] [] (AgentAddresses cf)) as [d' r] eqn:Hc.
    apply connect_spec in Hc. destruct r as [cl|[a err]]; [|done].
    destruct Hc as (_ & conns & -> & Hl & _). injection Hnew as <- <-. simpl.
    by rewrite length_fmap. }
  pose proof (Inv_run _ _ _ _ _ Hr) as [[Hs Hc] _ _ [_ Hq _] [_ _ Hp _ _] _ _ _ Hrange].
  rewrite length_pcs in Hs. rewrite <- Hlen. repeat split; try done.
  - eapply sends_range; [done|lia].
  - apply Hrange. rewrite length_pcs. lia.
Qed.

End ServiceFacts.

Section StopFacts.
Context {ext : Externals}.

(** The trace only grows. *)
Lemma trace_step s l s' : step s l = Some s' → trace s `prefix_of` trace s'.
Proof.
  intros Hs. step_cases Hs; norm; try done; try (by apply prefix_app_r);
    try (rewrite <- app_assoc; by apply prefix_app_r).
Qed.

(** A line put into the trace commutes with everything a step does. *)
Lemma logged_at_emit n ev e s :
  n ≤ length (trace s) → logged_at n ev (emit e s) = emit e (logged_at n ev s).
Proof.
  intros Hn. unfold logged_at, emit. simpl. f_equal.
  rewrite take_app_le, drop_app_le by done. by rewrite <- app_assoc.
Qed.

Lemma logged_at_cancel n ev c s : logged_at n ev (cancel c s) = cancel c (logged_at n ev s).
Proof. unfold cancel, logged_at. simpl. destruct (ctx_err s) eqn:E; simpl; by rewrite ?E. Qed.

Lemma logged_at_grp_done n ev t r s :
  n ≤ length (trace s) → logged_at n ev (grp_done t r s) = grp_done t r (logged_at n ev s).
Proof.
  intros Hn. unfold grp_done. rewrite <- logged_at_emit by done.
  destruct r as [e|]; [|done]. simpl. destruct (grp_err s); [done|].
  by rewrite logged_at_cancel.
Qed.

Lemma logged_at_set n ev s :
  (∀ pc, logged_at n ev (set_ingest pc s) = set_ingest pc (logged_at n ev s)) ∧
  (∀ l, logged_at n ev (set_TxChannel l s) = set_TxChannel l (logged_at n ev s)) ∧
  (∀ r, logged_at n ev (alloc r s) = alloc r (logged_at n ev s)) ∧
  (∀ i c, logged_at n ev (set_chan i c s) = set_chan i c (logged_at n ev s)) ∧
  (∀ i w, logged_at n ev (set_stream i w s) = set_stream i w (logged_at n ev s)) ∧
  (∀ d, logged_at n ev (tick d s) = tick d (logged_at n ev s)).
Proof. done. Qed.

Lemma step_logged_at n ev s l :
  n ≤ length (trace s) → step (logged_at n ev s) l = logged_at n ev <$> step s l.
Proof.
  intros Hn.
  destruct (logged_at_set n ev s) as (Hi & Ht & Ha & Hc & Hw & Hd).
  unfold step. change (crashed (logged_at n ev s)) with (crashed s).
  destruct (crashed s); [done|].
  destruct l as [c|d| |i|i r]; unfold step_ingest, step_stream, step_reply;
    change (ingest (logged_at n ev s)) with (ingest s);
    change (TxChannel (logged_at n ev s)) with (TxChannel s);
    change (ctx_err (logged_at n ev s)) with (ctx_err s);
    change (uuid_calls (logged_at n ev s)) with (uuid_calls s);
    change (heap (logged_at n ev s)) with (heap s);
    change (agentChannels (logged_at n ev s)) with (agentChannels s);
    change (streams (logged_at n ev s)) with (streams s);
    change (now (logged_at n ev s)) with (now s);
    repeat case_match; try done; rewrite ?fmap_Some; simpl option_map;
    unfold fmap, option_fmap, option_map; f_equal;
    rewrite ?logged_at_cancel, ?logged_at_grp_done, ?logged_at_emit by done;
    try done.
  all: unfold logged_at, set_ingest, set_stream, set_streams, set_chan, emit; simpl; f_equal;
    rewrite take_app_le, drop_app_le by done; by rewrite <- app_assoc.
Qed.

Lemma run_logged_at n ev sched : ∀ s,
  n ≤ length (trace s) → run (logged_at n ev s) sched = logged_at n ev <$> run s sched.
Proof.
  induction sched as [|l sched IH]; intros s Hn; simpl; [done|].
  rewrite step_logged_at by done. destruct (step s l) as [s1|] eqn:Hs; simpl; [|done].
  apply IH. apply trace_step, prefix_length in Hs. lia.
Qed.

(** X4. [Stop] returns [nil] and writes one log line; it does not
    cancel the context or touch any queue.  Whatever the goroutines of
    [Start] do after it is what they would have done without it, with
    that line added to the log, so [Stop] never makes [Start] return. *)
Theorem Stop_leaves_Start_running s sched :
  (Stop s).1 = None ∧
  ctx_err (Stop s).2 = ctx_err s ∧
  Wait (Stop s).2 = Wait s ∧
  run (Stop s).2 sched =
    logged_at (length (trace s)) (EvLogInfof "Stopping %s" [Name]) <$> run s sched ∧
  Wait <$> run (Stop s).2 sched = Wait <$> run s sched.
Proof.
  assert (Hstop : (Stop s).2 = logged_at (length (trace s)) (EvLogInfof "Stopping %s" [Name]) s).
  { unfold Stop, logged_at, emit. simpl. f_equal. by rewrite firstn_all, drop_all. }
  split; [done|]. split; [done|]. split; [done|].
  rewrite Hstop, run_logged_at by done. split; [done|].
  by destruct (run s sched).
Qed.

End StopFacts.

Section Queues.
Context {ext : Externals}.

(** Only the stream of the full queue can end the wait. *)
Lemma waiting_on_full_step p k s l s' :
  waiting_on_full p k s → step s l = Some s' → l ≠ LStream k →
  waiting_on_full p k s' ∧ TxChannel s' = TxChannel s ∧ heap s' = heap s ∧
  ∀ j, sends j (trace s') = sends j (trace s).
Proof.
  intros (Hi & c & Hc & Hcl & Hlen) Hs Hl. unfold waiting_on_full.
  step_cases Hs; norm; try congruence; try (exfalso; lia).
  all: split; [split; [done|]|split; [done|split; [done|intros j; by trace_simpl]]].
  all: exists c; rewrite ?list_lookup_insert_ne by congruence; done.
Qed.

Lemma waiting_on_full_run p k sched : ∀ s s',
  waiting_on_full p k s → run s sched = Some s' → LStream k ∉ sched →
  waiting_on_full p k s' ∧ TxChannel s' = TxChannel s ∧ heap s' = heap s ∧
  ∀ j, sends j (trace s') = sends j (trace s).
Proof.
  induction sched as [|l sched IH]; intros s s' Hw; simpl.
  - by intros [= <-].
  - destruct (step s l) as [s1|] eqn:Hs; [|done]. intros Hr Hnot.
    rewrite not_elem_of_cons in Hnot. destruct Hnot as [Hl Hnot].
    destruct (waiting_on_full_step _ _ _ _ _ Hw Hs) as (Hw1 & Ht1 & Hh1 & Hs1); [done|].
    destruct (IH _ _ Hw1 Hr Hnot) as (? & -> & -> & Hs2).
    split; [done|]. split; [done|]. split; [done|]. intros j. by rewrite Hs2.
Qed.

(** No queue is closed while the ingestion goroutine is sending. *)
Lemma open_while_sending ags txs s p k c :
  Inv ags txs s → ingest s = ISend p k → agentChannels s !! k = Some c → closed c = false.
Proof.
  intros [_ _ [_ Hcl] _ _ _ _ _ _] Hi Hc.
  rewrite (Hcl ltac:(unfold crashed; by rewrite Hi) k c Hc), Hi. done.
Qed.

(** X5. While the ingestion goroutine waits to send on a queue that
    holds 100 requests it cannot move, and until the stream of that
    queue receives a request it stays there: no further event is
    received, no request is allocated, and nothing is placed on any
    queue, the ones of the other agents included. *)
Theorem full_queue_stalls_ingestion t0 ags txs sched s p k c :
  run (Start_state t0 ags txs) sched = Some s →
  ingest s = ISend p k → agentChannels s !! k = Some c →
  length (buf c) = queue_capacity →
  step s LIngest = None ∧
  ∀ sched' s', run s sched' = Some s' → LStream k ∉ sched' →
    ingest s' = ISend p k ∧ TxChannel s' = TxChannel s ∧ heap s' = heap s ∧
    ∀ j, sends j (trace s') = sends j (trace s).
Proof.
  intros Hr Hi Hc Hlen.
  pose proof (open_while_sending _ _ _ _ _ _ (Inv_run _ _ _ _ _ Hr) Hi Hc) as Hcl.
  split.
  - unfold step, crashed, step_ingest. rewrite Hi, Hc, Hcl. case_decide; [lia|done].
  - intros sched' s' Hr' Hnot.
    destruct (waiting_on_full_run p k sched' s s') as ((? & _) & ? & ? & ?); try done.
    split; [done|]. eauto.
Qed.

(** X6. A queue never holds more than 100 requests; what a stream
    has passed to its agent is a prefix of what was placed on its queue;
    and as long as the stream has not returned an error it is at most
    101 requests behind. *)
Theorem queue_backlog_bounded t0 ags txs sched s i c :
  run (Start_state t0 ags txs) sched = Some s →
  agentChannels s !! i = Some c →
  length (buf c) ≤ queue_capacity ∧
  calls i (trace s) `prefix_of` sends i (trace s) ∧
  ((∀ e, streams s !! i ≠ Some (WDone (Some e))) →
   length (sends i (trace s)) ≤ length (calls i (trace s)) + S queue_capacity).
Proof.
  intros Hr Hc. pose proof (Inv_run _ _ _ _ _ Hr) as HI.
  destruct HI as [[Hs Hlc] ? ? [? Hsends Hq] ? ? ? ? Hrange].
  destruct (pcs s !! i) as [w|] eqn:Hw.
  2:{ apply lookup_ge_None_1 in Hw. apply lookup_lt_Some in Hc. lia. }
  destruct (Hq i w c Hw Hc) as [Hle Hsq]. split; [done|].
  rewrite (Hsends i c Hc). split.
  - apply calls_prefix_placed; [|done..]. split; [done|]. lia.
  - intros Hne. unfold stream_queue in Hsq.
    assert (calls i (trace s) ++ cur w ++ buf c = seq 0 (placed s i)) as Heq.
    { destruct w as [| | |[e|]]; try done.
      - apply pcs_done in Hw. by destruct (Hne e).
      - destruct Hsq as (_ & -> & ->). by rewrite !app_nil_r. }
    apply (f_equal length) in Heq. rewrite !length_app in Heq. rewrite <- Heq.
    assert (length (cur w) ≤ 1) by (destruct w; simpl; lia). lia.
Qed.

(** X7. The queues are filled in the order of the agents: at any
    time what was placed on a later queue is a prefix of what was
    placed on an earlier one, and the earlier one is at most one
    request ahead. *)
Theorem queues_filled_in_order t0 ags txs sched s i j ci cj :
  run (Start_state t0 ags txs) sched = Some s →
  i ≤ j → agentChannels s !! i = Some ci → agentChannels s !! j = Some cj →
  sends j (trace s) `prefix_of` sends i (trace s) ∧
  length (sends i (trace s)) ≤ S (length (sends j (trace s))).
Proof.
  intros Hr Hij Hi Hj. destruct (inv_queue _ _ _ (Inv_run _ _ _ _ _ Hr)) as [_ Hsends _].
  rewrite (Hsends i ci Hi), (Hsends j cj Hj), !length_seq.
  assert (placed s j ≤ placed s i ≤ S (placed s j)) as [? ?].
  { unfold placed. destruct (ingest s); try lia. repeat case_decide; lia. }
  split; [by apply seq_prefix|done].
Qed.

(** X8. A stream that returned [nil] found its queue closed and
    empty, and every request allocated so far was placed on its queue
    and passed to its agent, in the order of allocation. *)
Theorem stream_returns_nil_after_draining t0 ags txs sched s i :
  run (Start_state t0 ags txs) sched = Some s →
  streams s !! i = Some (WDone None) →
  ∃ c, agentChannels s !! i = Some c ∧ closed c = true ∧ buf c = [] ∧
       sends i (trace s) = seq 0 (length (heap s)) ∧
       calls i (trace s) = seq 0 (length (heap s)).
Proof.
  intros Hr Hw. pose proof (Inv_run _ _ _ _ _ Hr) as HI.
  destruct HI as [[Hs Hlc] ? [_ Hcl] [? Hsends Hq] ? ? ? ? Hrange].
  destruct (agentChannels s !! i) as [c|] eqn:Hc.
  2:{ apply lookup_ge_None_1 in Hc. apply lookup_lt_Some in Hw. rewrite length_pcs in Hs. lia. }
  exists c. split; [done|].
  destruct (Hq i _ c (proj2 (pcs_done s i None) Hw) Hc) as [_ (Hclosed & Hbuf & Hcalls)].
  assert (placed s i = length (heap s)) as Hp.
  { unfold placed. destruct (ingest s) eqn:Hi; try done.
    rewrite (Hcl ltac:(unfold crashed; by rewrite Hi) i c Hc) in Hclosed. done. }
  rewrite (Hsends i c Hc), Hcalls, Hp. done.
Qed.


End Queues.

Section Logging.
Context {ext : Externals}.

(** ** One log line for every call that returned *)

Lemma count_if_snoc f tr ev : count_if f (tr ++ [ev]) = count_if f tr + (if f ev then 1 else 0).
Proof. unfold count_if. rewrite sum_list_with_app. simpl. lia. Qed.

Lemma results_logged_step s l s' :
  step s l = Some s' →
  count_if is_evaluate (trace s) = count_if is_result_log (trace s) + in_flight s →
  count_if is_evaluate (trace s') = count_if is_result_log (trace s') + in_flight s'.
Proof.
  intros Hs. unfold in_flight.
  step_cases Hs; norm; rewrite ?count_if_snoc; simpl; try lia;
    repeat match goal with
    | Hw : streams _ !! _ = Some _ |- _ => apply streams_pcs in Hw; simpl in Hw
    end;
    repeat match goal with
    | |- context [sum_list_with ?f (<[?i:=?y]> ?l)] =>
        match goal with
        | Hl : l !! i = Some ?x |- _ =>
            let E := fresh "E" in
            pose proof (sum_list_with_insert f l i x y Hl) as E; simpl in E;
            generalize dependent (sum_list_with f (<[i:=y]> l)); intros
        end
    end; try lia.
  all: repeat case_match; simpl in *; try lia.
Qed.

(** X10. Every call of [Evaluate] that has returned left exactly one
    line in the log (the response or one of the two errors): the calls
    made are the result lines logged plus the calls in flight, and
    when [Start] returns the two numbers are equal. *)
Theorem every_returned_call_is_logged_once t0 ags txs sched s :
  run (Start_state t0 ags txs) sched = Some s →
  count_if is_evaluate (trace s) = count_if is_result_log (trace s) + in_flight s ∧
  (all_done s = true → count_if is_evaluate (trace s) = count_if is_result_log (trace s)).
Proof.
  intros Hr.
  assert (count_if is_evaluate (trace s) = count_if is_result_log (trace s) + in_flight s) as H.
  { revert sched s Hr. apply run_ind.
    - unfold in_flight, pcs. simpl. induction ags; simpl; [done|]. done.
    - eauto using results_logged_step. }
  split; [done|]. intros Hd. rewrite H.
  assert (in_flight s = 0) as ->; [|lia].
  unfold all_done in Hd. destruct (ingest s); try done.
  unfold in_flight, pcs. revert Hd. generalize (streams s).
  induction l as [|w ws IH]; [done|].
  simpl. intros [Hw Hws]%andb_prop. destruct w; try done; exact (IH Hws).
Qed.

End Logging.

Section EdgeCases.
Context {ext : Externals}.

(** ** No event, no agent *)

Lemma idle_step s l s' : closing_inv s → step s l = Some s' → idle s → idle s'.
Proof.
  intros [_ Hcl] Hs [Ht Hh Hg Hi Hq Hw Htr].
  destruct Hi as [Hi|[[k0 Hi]|Hi]]; step_cases Hs.
  all: try match goal with
           | Hc : agentChannels _ !! ?k = Some ?c, Ht : closed ?c = true,
             Hd : ingest _ = IDefer ?k _ |- _ =>
               rewrite (Hcl ltac:(done) k c Hc) in Ht;
               apply bool_decide_eq_true_1 in Ht; lia
           end.
  all: try match goal with
           | Hb : buf ?c = _ :: _, Hc : agentChannels _ !! _ = Some ?c |- _ =>
               apply Hq in Hc; congruence
           | Hx : streams _ !! _ = Some (WCheck _) |- _ =>
               apply streams_pcs, Hw in Hx; destruct Hx; discriminate
           end.
  all: split; norm; rewrite ?Hg; try done; eauto.
  all: try (intros j; trace_simpl; apply Htr).
  all: try (intros j c' Hc'; split_insert; eauto; fail).
  all: try (intros j w' Hw'; split_insert; eauto; fail).
Qed.

Lemma idle_run t0 ags sched s : run (Start_state t0 ags []) sched = Some s → idle s.
Proof.
  revert sched s. apply run_ind.
  2:{ intros sched s l s' Hr Hidle Hs. eapply idle_step; [|done..].
      apply (inv_closing _ _ _ (Inv_run _ _ _ _ _ Hr)). }
  split; simpl; try done; eauto.
  - intros i c. rewrite list_lookup_fmap. destruct (ags !! i); naive_solver.
  - intros i w. unfold pcs. simpl. rewrite !list_lookup_fmap. destruct (ags !! i); naive_solver.
Qed.



(** ** Identifiers *)

(** The [k]-th request of the loop started after [n] identifiers has
    the identifier of call [n + k]. *)
Lemma requests_from_lookup txs : ∀ n k r,
  requests_from n txs !! k = Some r →
  ∃ u tx, NewUUID (n + k) = inl u ∧ RequestId r = UUID_String u ∧
          tx ∈ txs ∧ ToMessage tx = inl (Event r).
Proof.
  induction txs as [|tx rest IH]; intros n k r; simpl; [done|].
  destruct (ToMessage tx) as [msg|err] eqn:Hm.
  - unfold tag, uuid_Must. destruct (NewUUID n) as [u|e] eqn:Hu; [|done].
    destruct k as [|k]; simpl.
    + intros [= <-]. exists u, tx. rewrite Nat.add_0_r. repeat split; try done. apply list_elem_of_here.
    + intros (u' & tx' & Hu' & ? & ? & ?)%IH. exists u', tx'.
      replace (n + S k) with (S n + k) by lia. repeat split; try done. by apply list_elem_of_further.
  - intros (u' & tx' & ? & ? & ? & ?)%IH. exists u', tx'. repeat split; try done.
    by apply list_elem_of_further.
Qed.

(** X13. The [k]-th request allocated carries the identifier the
    [k]-th call of [uuid.NewUUID] returned and the payload of an event
    of the source; so when the generator never returns the same
    identifier twice, no two requests share their [RequestId]. *)
Theorem request_ids_from_generator t0 ags txs sched s :
  run (Start_state t0 ags txs) sched = Some s →
  (∀ k r, heap s !! k = Some r →
     ∃ u tx, NewUUID k = inl u ∧ RequestId r = UUID_String u ∧
             tx ∈ txs ∧ ToMessage tx = inl (Event r)) ∧
  ((∀ m n u v, NewUUID m = inl u → NewUUID n = inl v →
      UUID_String u = UUID_String v → m = n) →
   ∀ j k r r', heap s !! j = Some r → heap s !! k = Some r' →
     RequestId r = RequestId r' → j = k).
Proof.
  intros Hr. destruct (inv_heap _ _ _ (Inv_run _ _ _ _ _ Hr)) as [_ _ Hp _ _].
  assert (Hk : ∀ k r, heap s !! k = Some r →
     ∃ u tx, NewUUID k = inl u ∧ RequestId r = UUID_String u ∧
             tx ∈ txs ∧ ToMessage tx = inl (Event r)).
  { intros k r Hk. apply (requests_from_lookup txs 0 k r).
    by eapply prefix_lookup_Some. }
  split; [done|]. intros Hinj j k r r' Hj Hk' Hid.
  destruct (Hk j r Hj) as (u & _ & Hu & Hru & _).
  destruct (Hk k r' Hk') as (v & _ & Hv & Hrv & _).
  apply (Hinj j k u v Hu Hv). congruence.
Qed.

End EdgeCases.

Section ConversionErrors.
Context {ext : Externals}.

(** ** Translation failures in the log *)

Lemma conversion_errors_snoc tr ev :
  conversion_errors (tr ++ [ev]) = conversion_errors tr ++ conversion_errors [ev].
Proof. apply omap_app. Qed.

Ltac conv_simpl :=
  rewrite ?conversion_errors_snoc;
  repeat match goal with
  | |- context [conversion_errors [?ev]] =>
      let r := eval vm_compute in (conversion_errors [ev]) in
      change (conversion_errors [ev]) with r
  end;
  rewrite ?app_nil_r.

Lemma conversion_errors_step s l s' :
  step s l = Some s' → l ≠ LIngest →
  conversion_errors (trace s') = conversion_errors (trace s).
Proof. intros Hs Hl. step_cases Hs; norm; conv_simpl; done. Qed.

Lemma conversion_inv_step txs s l s' :
  step s l = Some s' → conversion_inv txs s → conversion_inv txs s'.
Proof.
  intros Hs [Hp Hx].
  destruct l as [c|d| |i|i r];
    try (destruct (step_ingest_fields _ _ _ Hs) as (Hi & Ht & Hh & Hn); [done|];
         split; unfold pending; rewrite ?Hi, ?Ht, ?Hh, ?Hn;
         rewrite (conversion_errors_step _ _ _ Hs) by done; done).
  unfold pending in *.
  step_cases Hs; split; norm; conv_simpl; intros; use_ingest; simplify_eq/=; eauto.
  all: unfold pending in *; simpl in *; simplify_eq; try specialize (Hp _ eq_refl);
    simpl in Hp;
    repeat match goal with
    | E : ToMessage _ = _ |- _ => rewrite E in Hp
    end.
  all: try (rewrite Hp, <- ?app_assoc; done).
  all: try (rewrite ingest_grp_done in *; done).
  rewrite Hp. apply prefix_app, (prefix_cons _ [] _), prefix_nil.
Qed.

Lemma conversion_inv_run t0 ags txs sched s :
  run (Start_state t0 ags txs) sched = Some s → conversion_inv txs s.
Proof.
  revert sched s. apply run_ind; [|eauto using conversion_inv_step].
  split; simpl.
  - by intros l [= <-].
  - apply prefix_nil.
Qed.

(** X26. The translation failures logged so far are, in order, the
    errors of the events the loop is done with: always a prefix of the
    errors of the events of the source that do not translate, and all
    of them once the loop has returned [nil]. *)
Theorem translation_failures_logged_in_order t0 ags txs sched s :
  run (Start_state t0 ags txs) sched = Some s →
  conversion_errors (trace s) `prefix_of` untranslatable txs ∧
  (∀ l, pending s = Some l →
     untranslatable txs = conversion_errors (trace s) ++ untranslatable l) ∧
  (ingest s = IDone None → conversion_errors (trace s) = untranslatable txs).
Proof.
  intros Hr. destruct (conversion_inv_run _ _ _ _ _ Hr) as [Hp Hx].
  split; [done|]. split; [done|]. intros Hi.
  rewrite (Hp []) by (unfold pending; by rewrite Hi). simpl. by rewrite app_nil_r.
Qed.

End ConversionErrors.

(** * Properties of the notifier *)

Section EscapeFacts.
Import Strings.Ascii Notifier.

(** ** Escaping *)

Lemma string_app_cons c a b : String c a +:+ b = String c (a +:+ b).
Proof. done. Qed.
Lemma string_app_nil_l a : "" +:+ a = a.
Proof. done. Qed.
Lemma string_app_nil_r a : a +:+ "" = a.
Proof. induction a as [|c a IH]; [done|]. by rewrite string_app_cons, IH. Qed.
Lemma string_app_assoc a b c : (a +:+ b) +:+ c = a +:+ (b +:+ c).
Proof. induction a as [|x a IH]; [done|]. by rewrite !string_app_cons, IH. Qed.
Lemma string_length_app a b : String.length (a +:+ b) = String.length a + String.length b.
Proof. induction a as [|x a IH]; [done|]. rewrite string_app_cons. simpl. by rewrite IH. Qed.

(** The chained replacements and the single pass agree, whether a
    tilde was met before or not. *)
Lemma later_passes_escape str : ∀ seen, later_passes seen str = escape_from seen str.
Proof.
  induction str as [|x rest IH]; intros seen; [by destruct seen|].
  pose proof (IH true) as IHt. pose proof (IH false) as IHf.
  unfold later_passes, id in *.
  destruct seen; destruct x as [[] [] [] [] [] [] [] []]; cbn -[String.append];
    repeat (rewrite ?string_app_cons, ?string_app_nil_l; cbn -[String.append]);
    rewrite ?IHt, ?IHf; done.
Qed.

Lemma toEscapeMsg_one_pass_aux str : toEscapeMsg str = escape_from false str.
Proof. apply (later_passes_escape str false). Qed.

(** X14. The five replacements of [toEscapeMsg] amount to one pass
    from left to right: a backslash is put before every [_], [-],
    backquote and [.] and before the first [~]; every other character,
    a later [~] and the backslash included, is copied. *)
Theorem toEscapeMsg_one_pass str : toEscapeMsg str = escape_from false str.
Proof. apply toEscapeMsg_one_pass_aux. Qed.

Lemma escape_from_app a : ∀ seen b,
  escape_from seen (a +:+ b) =
  escape_from seen a +:+ escape_from (seen || occurs "~" a) b.
Proof.
  induction a as [|x a IH]; intros seen b.
  - simpl. by rewrite orb_false_r.
  - rewrite string_app_cons. simpl.
    destruct (Ascii.eqb_spec x "~") as [->|Hne]; simpl.
    + destruct seen; rewrite IH, !string_app_cons; simpl; by rewrite ?orb_true_r.
    + destruct (always_escaped x); by rewrite IH, !string_app_cons.
Qed.

(** X15. [toEscapeMsg] distributes over concatenation as long as the
    left part has no [~]; after a [~] in the left part, no [~] of the
    right part is escaped. *)
Theorem toEscapeMsg_app a b :
  toEscapeMsg (a +:+ b) =
  toEscapeMsg a +:+ (if occurs "~" a then escape_from true b else toEscapeMsg b).
Proof.
  rewrite !toEscapeMsg_one_pass_aux, escape_from_app. simpl.
  destruct (occurs "~" a); by rewrite ?toEscapeMsg_one_pass_aux.
Qed.

Lemma escape_from_guarded str : ∀ seen prev,
  guarded always_escaped prev (escape_from seen str) = true.
Proof.
  induction str as [|x rest IH]; intros seen prev; [done|]. simpl.
  destruct (always_escaped x) eqn:Hx; simpl.
  - by rewrite Hx, IH.
  - destruct (Ascii.eqb_spec x "~") as [->|Hne]; simpl.
    + destruct seen; simpl; by rewrite IH.
    + by rewrite Hx, IH.
Qed.

(** X16. In the result of [toEscapeMsg] every [_], [-], backquote
    and [.] comes right after a backslash. *)
Theorem toEscapeMsg_guarded str prev :
  guarded always_escaped prev (toEscapeMsg str) = true.
Proof. rewrite toEscapeMsg_one_pass_aux. apply escape_from_guarded. Qed.

Lemma escape_from_length str : ∀ seen,
  String.length (escape_from seen str) =
  String.length str + count_escaped str +
  (if (negb seen && occurs "~" str)%bool then 1 else 0).
Proof.
  induction str as [|x rest IH]; intros seen; simpl; [by rewrite andb_false_r|].
  destruct (always_escaped x) eqn:Hx; simpl.
  - rewrite IH. destruct (Ascii.eqb_spec x "~") as [->|Hne]; [done|]. simpl. lia.
  - destruct (Ascii.eqb x "~"); simpl.
    + destruct seen; simpl; rewrite IH; simpl; lia.
    + rewrite IH. lia.
Qed.

(** X17. [toEscapeMsg] adds one character for every [_], [-],
    backquote and [.] of its argument, and one more, not one for each,
    when the argument has a [~]. *)
Theorem toEscapeMsg_length str :
  String.length (toEscapeMsg str) =
  String.length str + count_escaped str + (if occurs "~" str then 1 else 0).
Proof. rewrite toEscapeMsg_one_pass_aux. apply escape_from_length. Qed.

Lemma escape_from_plain str seen :
  count_escaped str = 0 → (negb seen && occurs "~" str)%bool = false →
  escape_from seen str = str.
Proof.
  induction str as [|x rest IH]; simpl; [done|].
  destruct (always_escaped x); [done|]. simpl. intros Hc.
  destruct (Ascii.eqb x "~"); simpl.
  - destruct seen; [|done]. intros _. by rewrite IH.
  - intros Ht. by rewrite IH.
Qed.

(** X18. [toEscapeMsg] returns its argument unchanged exactly when
    the argument has none of the five characters [_], [-], [~],
    backquote and [.]. *)
Theorem toEscapeMsg_fixes_plain_text str :
  toEscapeMsg str = str ↔ count_escaped str = 0 ∧ occurs "~" str = false.
Proof.
  split.
  - intros Heq. apply (f_equal String.length) in Heq. rewrite toEscapeMsg_length in Heq.
    destruct (occurs "~" str); [lia|]. split; [lia|done].
  - intros [Hc Ht]. rewrite toEscapeMsg_one_pass_aux. by apply escape_from_plain.
Qed.

End EscapeFacts.

Section EscapeInjective.
Import Strings.Ascii Notifier.

(** How the single pass writes one character. *)
Lemma escape_from_cons seen x rest :
  (always_escaped x = true ∧ x ≠ "~"%char ∧ x ≠ "\"%char ∧
   escape_from seen (String x rest) = String "\" (String x (escape_from seen rest))) ∨
  (x = "~"%char ∧ seen = false ∧
   escape_from seen (String x rest) = String "\" (String x (escape_from true rest))) ∨
  (always_escaped x = false ∧ (x = "~"%char → seen = true) ∧
   escape_from seen (String x rest) =
     String x (escape_from (seen || Ascii.eqb x "~") rest)).
Proof.
  simpl. destruct (always_escaped x) eqn:Hx.
  - left. split; [done|]. split; [by intros ->|]. split; [by intros ->|done].
  - destruct (Ascii.eqb_spec x "~") as [->|Hne].
    + destruct seen; [|by right; left].
      right. right. split; [done|]. split; [done|]. done.
    + right. right. split; [done|]. split; [done|]. by rewrite orb_false_r.
Qed.

(** The result of the single pass does not begin with a character
    that is always escaped, nor with a tilde when none was met. *)
Lemma escape_from_head seen x str out :
  escape_from seen str = String x out →
  always_escaped x = false ∧ (x = "~"%char → seen = true).
Proof.
  destruct str as [|z str]; [done|].
  destruct (escape_from_cons seen z str)
    as [(_ & _ & _ & ->)|[(_ & _ & ->)|(Hz & Hzt & ->)]]; intros [= <- _]; done.
Qed.

Lemma escape_from_inj a : ∀ seen b,
  escape_from seen a = escape_from seen b → a = b.
Proof.
  induction a as [|x a IH]; intros seen [|y b].
  - done.
  - destruct (escape_from_cons seen y b) as [(_ & _ & _ & ->)|[(_ & _ & ->)|(_ & _ & ->)]]; done.
  - destruct (escape_from_cons seen x a) as [(_ & _ & _ & ->)|[(_ & _ & ->)|(_ & _ & ->)]]; done.
  - destruct (escape_from_cons seen x a)
      as [(Hx & Hxt & Hxb & ->)|[(Hxe & Hxs & ->)|(Hx & Hxt & ->)]];
      destruct (escape_from_cons seen y b)
        as [(Hy & Hyt & Hyb & ->)|[(Hye & Hys & ->)|(Hy & Hyt & ->)]].
    + intros [= <- Heq]. f_equal. eauto.
    + intros [= -> Heq]. done.
    + intros [= <- Heq]. symmetry in Heq.
      apply escape_from_head in Heq as [? _]. congruence.
    + intros [= <- Heq]. done.
    + intros [= <- Heq]. f_equal. eauto.
    + intros [= <- Heq]. subst. symmetry in Heq.
      apply escape_from_head in Heq as [_ Ht]. by specialize (Ht eq_refl).
    + intros [= -> Heq].
      apply escape_from_head in Heq as [? _]. congruence.
    + intros [= -> Heq]. subst.
      apply escape_from_head in Heq as [_ Ht]. by specialize (Ht eq_refl).
    + intros [= <- Heq]. f_equal. eauto.
Qed.

(** X27. [toEscapeMsg] loses nothing: two strings have the same
    result only when they are the same string. *)
Theorem toEscapeMsg_inj a b : toEscapeMsg a = toEscapeMsg b ↔ a = b.
Proof.
  split; [|by intros ->].
  rewrite !toEscapeMsg_one_pass_aux. apply escape_from_inj.
Qed.

End EscapeInjective.

Section ControllerFacts.
Import Strings.Ascii Notifier NotifierController.
Context {lib : Libraries}.

(** X19. [formatPrice] throws what [BigNumber.from] throws;
    otherwise it formats, with 6 decimals, the price rounded down to a
    multiple of 100000, so two prices that differ only in their last
    five digits are formatted alike. *)
Theorem formatPrice_rounds_down price :
  match BigNumber_from price with
  | Throw e => formatPrice price = Throw e
  | Ok v =>
      formatPrice price = Ok (utils_formatUnits (100000 * (v / 100000)) 6) ∧
      (100000 * (v / 100000) ≤ v < 100000 * (v / 100000) + 100000)%Z ∧
      ∀ price' v', BigNumber_from price' = Ok v' →
        (v' / 100000 = v / 100000)%Z → formatPrice price' = formatPrice price
  end.
Proof.
  unfold formatPrice. destruct (BigNumber_from price) as [v|e] eqn:Hv; simpl; [|done].
  assert (Hfloor : ∀ x, (x - x `mod` 100000 = 100000 * (x / 100000))%Z).
  { intros x. pose proof (Z.div_mod x 100000). lia. }
  rewrite Hfloor. split; [done|]. split.
  - pose proof (Z.mod_pos_bound v 100000). pose proof (Z.div_mod v 100000). lia.
  - intros price' v' -> Hq. simpl. by rewrite !Hfloor, Hq.
Qed.


(** X21. A message [formatTelegramAlert] returns is escaped as a
    whole, the link included: every [_], [-], backquote and [.] in it
    comes after a backslash, and it begins with one of the two icons
    followed by the link text and the explorer address with its dot
    escaped. *)
Theorem formatTelegramAlert_escapes_link alert message :
  formatTelegramAlert alert = Ok message →
  (∀ prev, guarded always_escaped prev message = true) ∧
  ∃ icon rest, (icon = "️💰"%string ∨ icon = "⚠️"%string) ∧
    message = icon +:+ " [TX](https://securityalliance\.dev/tx/" +:+ rest.
Proof.
  unfold formatTelegramAlert.
  destruct (decide (alertId alert = FortaAlertIds_market)) as [Hm|Hm].
  - intros [= <-]. split; [intros prev; apply toEscapeMsg_guarded|].
    eexists "️💰"%string, _. split; [by left|].
    rewrite <- (string_app_assoc "️💰 [TX](" explorerUrl).
    rewrite <- (string_app_assoc _ "tx/").
    rewrite toEscapeMsg_app. simpl. reflexivity.
  - destruct (decide (alertId alert = FortaAlertIds_oracle)) as [Ho|Ho]; [|done].
    destruct (formatPrice (metadata alert "anchorPrice")) as [anchor|]; [|done].
    destruct (formatPrice (metadata alert "reporterPrice")) as [reporter|]; [|done].
    simpl. intros [= <-]. split; [intros prev; apply toEscapeMsg_guarded|].
    eexists "⚠️"%string, _. split; [by right|].
    rewrite <- (string_app_assoc "⚠️ [TX](" explorerUrl).
    rewrite <- (string_app_assoc _ "tx/").
    rewrite toEscapeMsg_app. simpl. reflexivity.
Qed.

Section Post.
Variable env : ProcessEnv.

(** ** The handler of [POST /forta] *)

Lemma notify_all_app a b tr :
  notify_all env (a ++ b) tr =
  match notify_all env a tr with
  | (Ok _, tr') => notify_all env b tr'
  | (Throw e, tr') => (Throw e, tr')
  end.
Proof.
  revert tr. induction a as [|alert a IH]; intros tr; [done|].
  simpl. unfold bind. destruct (notify env alert tr) as [[[]|e] tr1]; [|done].
  apply IH.
Qed.

(** X22. [post] handles the alerts in order and stops at the first
    exception: on a list [a ++ b] it does what it does on [a] and then,
    only if that did not throw, what it does on [b]. *)
Theorem post_app a b tr :
  post env (a ++ b) tr =
  match post env a tr with
  | (Ok _, tr') => post env b tr'
  | (Throw e, tr') => (Throw e, tr')
  end.
Proof.
  unfold post, bind. rewrite notify_all_app.
  destruct (notify_all env a tr) as [[[]|e] tr1]; done.
Qed.

(** X23. When [TELEGRAMKEY] is not set or empty, [post] on a list
    that is not empty logs the first alert and throws: the exception
    of [formatTelegramAlert] if it throws, else [NO BOT KEY].  Nothing
    is sent to Telegram or Discord and no later alert is looked at. *)
Theorem post_without_bot alert rest tr :
  truthy (TELEGRAMKEY env) = None →
  post env (alert :: rest) tr =
    (Throw match formatTelegramAlert alert with
           | Ok _ => Error "NO BOT KEY"
           | Throw e => e
           end,
     tr ++ [ConsoleLog alert]).
Proof.
  intros Hkey. unfold post, bind. simpl. unfold bind, notify, bind, io, lift, sendTelegramAlert.
  unfold bot, botKey. rewrite Hkey. simpl.
  by destruct (formatTelegramAlert alert).
Qed.

(** What one alert leaves behind when its iteration completes, and
    when it throws. *)
Lemma notify_Ok alert tr tr' :
  notify env alert tr = (Ok (), tr') →
  ∃ message embed, formatTelegramAlert alert = Ok message ∧
    tr' = tr ++ sent env alert message embed.
Proof.
  unfold notify, bind, io, lift, sendTelegramAlert, sendDiscordAlert, sent.
  destruct (formatTelegramAlert alert) as [message|]; [|done].
  destruct (bot env) as [b|]; [|done].
  destruct (bot_sendMessage _ _ _ _ _) as [res|]; [|done].
  destruct (formatDiscordAlert _ alert) as [embed|]; [|done].
  destruct (truthy (discordWebhookId env)) as [webhook|].
  - destruct (axios_post _ _ _); [|done]. intros [= <-]. exists message, embed.
    split; [done|]. by rewrite <- !app_assoc.
  - intros [= <-]. exists message, embed. split; [done|]. by rewrite <- !app_assoc.
Qed.

(** X24. When [post] returns, it returns [This action sent alert]
    and has, for every alert in order, logged it, sent its formatted
    text to the Telegram chat with parse mode [MarkdownV2] and then
    either posted one embed to the Discord webhook or, when no webhook
    is configured, only warned [NO WEBHOOK ID]. *)
Theorem post_success alerts tr r tr' :
  post env alerts tr = (Ok r, tr') →
  r = "This action sent alert"%string ∧
  ∃ chunks, tr' = tr ++ concat chunks ∧
    Forall2 (λ alert chunk, ∃ message embed,
               formatTelegramAlert alert = Ok message ∧
               chunk = sent env alert message embed) alerts chunks.
Proof.
  unfold post, bind. destruct (notify_all env alerts tr) as [[[]|e] tr1] eqn:Hall; [|done].
  intros [= <- <-]. split; [done|].
  revert tr Hall. induction alerts as [|alert rest IH]; intros tr; simpl.
  - intros [= <-]. exists []. split; [by rewrite app_nil_r|constructor].
  - unfold bind. destruct (notify env alert tr) as [[[]|e] tr2] eqn:Hn; [|done].
    intros Hrest. destruct (notify_Ok _ _ _ Hn) as (message & embed & Hm & ->).
    destruct (IH _ Hrest) as (chunks & -> & Hall).
    exists (sent env alert message embed :: chunks). split.
    + simpl. by rewrite <- app_assoc.
    + constructor; eauto.
Qed.

Lemma notify_Throw alert tr e tr' :
  notify env alert tr = (Throw e, tr') →
  ∃ partial, tr' = tr ++ ConsoleLog alert :: partial ∧
    (partial = [] ∨
     ∃ message, formatTelegramAlert alert = Ok message ∧
       (partial = [TelegramSend chatId message "MarkdownV2"] ∨
        ∃ webhook embed, truthy (discordWebhookId env) = Some webhook ∧
          partial = [TelegramSend chatId message "MarkdownV2";
                     DiscordPost ("https://discord.com/api/webhooks/" +:+ webhook) [embed]])).
Proof.
  unfold notify, bind, io, lift, sendTelegramAlert, sendDiscordAlert, throw.
  destruct (formatTelegramAlert alert) as [message|e0].
  2:{ intros [= <- <-]. exists []. split; [done|]. by left. }
  destruct (bot env) as [b|].
  2:{ intros [= <- <-]. exists []. split; [done|]. by left. }
  destruct (bot_sendMessage _ _ _ _ _) as [res|e0].
  2:{ intros [= <- <-]. eexists. rewrite <- app_assoc. split; [done|]. right. eauto. }
  destruct (formatDiscordAlert _ alert) as [embed|e0].
  2:{ intros [= <- <-]. eexists. rewrite <- app_assoc. split; [done|]. right. eauto. }
  destruct (truthy (discordWebhookId env)) as [webhook|] eqn:Hw; [|done].
  destruct (axios_post _ _ _) as [status|e0]; [done|].
  intros [= <- <-]. eexists. rewrite <- !app_assoc. split; [done|]. right.
  exists message. split; [done|]. right. eauto.
Qed.

(** X25. When [post] throws, the alerts before the failing one were
    handled completely, the failing one was logged and at most sent to
    Telegram and posted to Discord, in that order, and the alerts
    after it left no effect. *)
Theorem post_failure alerts tr e tr' :
  post env alerts tr = (Throw e, tr') →
  ∃ before alert rest chunks partial,
    alerts = before ++ alert :: rest ∧
    Forall2 (λ alert chunk, ∃ message embed,
               formatTelegramAlert alert = Ok message ∧
               chunk = sent env alert message embed) before chunks ∧
    tr' = tr ++ concat chunks ++ ConsoleLog alert :: partial ∧
    (partial = [] ∨
     ∃ message, formatTelegramAlert alert = Ok message ∧
       (partial = [TelegramSend chatId message "MarkdownV2"] ∨
        ∃ webhook embed, truthy (discordWebhookId env) = Some webhook ∧
          partial = [TelegramSend chatId message "MarkdownV2";
                     DiscordPost ("https://discord.com/api/webhooks/" +:+ webhook) [embed]])).
Proof.
  unfold post, bind. destruct (notify_all env alerts tr) as [[[]|e0] tr1] eqn:Hall; [done|].
  intros [= <- <-].
  revert tr Hall. induction alerts as [|alert rest IH]; intros tr; simpl; [done|].
  unfold bind. destruct (notify env alert tr) as [[[]|e1] tr2] eqn:Hn.
  - intros Hrest. destruct (notify_Ok _ _ _ Hn) as (message & embed & Hm & ->).
    destruct (IH _ Hrest) as (before & a & rest' & chunks & partial & -> & Hall & -> & Hp).
    exists (alert :: before), a, rest', (sent env alert message embed :: chunks), partial.
    split; [done|]. split; [constructor; eauto|]. split; [|done].
    simpl. by rewrite <- !app_assoc.
  - intros [= <- <-]. destruct (notify_Throw _ _ _ _ Hn) as (partial & -> & Hp).
    exists [], alert, rest, [], partial. split; [done|]. split; [constructor|]. done.
Qed.

End Post.
End ControllerFacts.


(** * Concrete runs *)

Import Demo.

#[local] Existing Instance demo.

(** ** Fan-out (C1) *)



(** ** One request object for all queues (C2) *)

(** C2 after the request of the event [1] is placed on both queues. *)
Lemma queues_share_one_request_witness :
  run (start two_agents [1; 0]) (replicate 4 LIngest) = Some placed_state ∧
  heap placed_state `prefix_of` requests_from 0 [1; 0] ∧
  (∀ i c k p, agentChannels placed_state !! i = Some c →
     sends i (trace placed_state) !! k = Some p → p = k ∧ p < length (heap placed_state)) ∧
  (∀ i c p, agentChannels placed_state !! i = Some c → p ∈ buf c →
     p < length (heap placed_state)) ∧
  (∀ sched' s', run placed_state sched' = Some s' → heap placed_state `prefix_of` heap s').
Proof.
  split; [vm_compute; reflexivity|].
  apply (queues_share_one_request (ext:=demo) 0 two_agents [1; 0] (replicate 4 LIngest)).
  vm_compute. reflexivity.
Defined.

(** After the request of the event [1] is placed, both queues hold the
    pointer [0]. *)
Lemma queues_share_pointer :
  run (start two_agents [1; 0]) (replicate 4 LIngest) = Some placed_state ∧
  agentChannels placed_state = [mkChan [0] false; mkChan [0] false] ∧
  length (heap placed_state) = 1 ∧
  ¬ (∀ sched s,
       run (start two_agents [1; 0]) sched = Some s →
       ∀ i j ci cj p q, i ≠ j →
         agentChannels s !! i = Some ci → agentChannels s !! j = Some cj →
         p ∈ buf ci → q ∈ buf cj → p ≠ q).
Proof.
  split; [vm_compute; reflexivity|]. do 2 (split; [reflexivity|]).
  intros Hc.
  refine (Hc (replicate 4 LIngest) placed_state ltac:(vm_compute; reflexivity)
            0 1 _ _ 0 0 _ eq_refl eq_refl _ _ eq_refl); [lia| |];
    simpl; apply list_elem_of_here.
Qed.

(** ** Shutdown when the source is exhausted (C3) *)


(** ** An agent call that fails (C4) *)

(** C4 on a call in flight that the agent answers with an error. *)
Lemma agent_failure_is_local_witness :
  run (start one_agent [1; 2]) call_in_flight = Some in_flight_state ∧
  crashed in_flight_state = false ∧
  streams in_flight_state !! 0 = Some (WCall 0 5000000000 None) ∧
  ∃ s', step in_flight_state (LReply 0 (inr (ErrorString "timeout"))) = Some s' ∧
    logged_and_continued in_flight_state 0
      (EvLogError "error invoking agent" (ErrorString "timeout")) s'.
Proof.
  split; [vm_compute; reflexivity|]. split; [reflexivity|]. split; [reflexivity|].
  destruct (agent_failure_is_local (ext:=demo) 0 one_agent [1; 2] call_in_flight
              in_flight_state) as [Hlocal _]; [vm_compute; reflexivity|].
  apply (Hlocal 0 0 5000000000%Z None (ErrorString "timeout")); reflexivity.
Defined.

(** ** An event that does not translate (C5) *)

(** C5 on the event [0], which does not translate, with [1] next in the
    source. *)
Lemma translation_failure_skips_event_witness :
  ingest received_state = ICheck 0 ∧ ctx_err received_state = None ∧
  ToMessage 0 = inr (ErrorString "unsupported transaction") ∧
  ∃ s', step received_state LIngest = Some s' ∧
    heap s' = heap received_state ∧
    agentChannels s' = agentChannels received_state ∧
    ingest s' = IRange ∧ TxChannel s' = [1].
Proof.
  do 3 (split; [reflexivity|]).
  destruct (translation_failure_skips_event (ext:=demo) received_state 0
              (ErrorString "unsupported transaction") eq_refl eq_refl eq_refl)
    as (s' & Hs & _ & Hh & Hc & _ & _ & _ & Hi & Ht & _).
  exists s'. repeat split; done.
Defined.

(** ** Cancellation (C6) *)



(** With 102 events and one agent that never answers, the ingestion
    goroutine waits on the full queue; after cancellation the stream
    returns, nothing receives from the queue any more and [Wait] never
    returns. *)
Lemma ingestion_stuck_after_cancellation :
  run (start one_agent (replicate 102 1)) stuck_run = Some stuck_state ∧
  TxChannel stuck_state = [] ∧ ctx_err stuck_state = Some Canceled ∧
  blocked_on_send stuck_state ∧
  ∀ sched' s', run stuck_state sched' = Some s' → Wait s' = None.
Proof.
  assert (Hb : blocked_on_send stuck_state).
  { eexists 101, 0, _, _. repeat split; reflexivity. }
  split; [vm_compute; reflexivity|]. split; [reflexivity|]. split; [reflexivity|].
  split; [done|]. intros sched' s' Hr. by eapply blocked_on_send_forever.
Qed.

(** ** The context of a call in flight (C7) *)



(** ** Order of delivery (C8) *)


(** ** Tagging (C9) *)



(** With that generator the first event that translates crashes the
    process. *)
Lemma ingestion_crashes_when_uuid_fails :
  crashed <$> run (Start_state (ext:=demo_uuid_fails) 0 one_agent [1]) (replicate 4 LIngest)
  = Some true.
Proof. reflexivity. Qed.

(** ** A response that does not serialise (C10) *)

(** C10 on a call in flight whose answer does not serialise. *)
Lemma marshal_failure_is_local_witness :
  run (start one_agent [1; 2]) call_in_flight = Some in_flight_state ∧
  crashed in_flight_state = false ∧
  streams in_flight_state !! 0 = Some (WCall 0 5000000000 None) ∧
  MarshalToString 0 = inr (ErrorString "unsupported response") ∧
  ∃ s', step in_flight_state (LReply 0 (inl 0)) = Some s' ∧
    logged_and_continued in_flight_state 0
      (EvLogError "error marshaling response" (ErrorString "unsupported response")) s'.
Proof.
  split; [vm_compute; reflexivity|]. do 3 (split; [reflexivity|]).
  destruct (marshal_failure_is_local (ext:=demo) 0 one_agent [1; 2] call_in_flight
              in_flight_state) as [Hlocal _]; [vm_compute; reflexivity|].
  apply (Hlocal 0 0 5000000000%Z None 0 (ErrorString "unsupported response")); reflexivity.
Defined.

(** ** The further properties on concrete inputs *)

Import Examples.

(** X1 for the addresses [agent-a] and [agent-b]. *)
Lemma NewTxAnalyzerService_returns_witness :
  ∃ t, NewTxAnalyzerService (grpc:=demo_grpc) () two_addresses =
         (["agent-a:50051"; "agent-b:50051"]%string, Returned t) ∧
       length (agents t) = 2.
Proof.
  destruct (NewTxAnalyzerService_returns (grpc:=demo_grpc) () two_addresses)
    as (t & Hnew & _ & _ & Hlen & _).
  { intros [|[|k]] addr [= <-]; eexists; reflexivity. }
  exists t. split; [exact Hnew|exact Hlen].
Defined.

(** X2 for the addresses [agent-a], [down] and [agent-b]: the third is
    never dialled. *)
Lemma NewTxAnalyzerService_exits_witness :
  NewTxAnalyzerService (grpc:=demo_grpc) () one_down =
    (["agent-a:50051"; "down:50051"]%string,
     Fatalf "did not connect to %s, %v" "down" (ErrorString "connection refused")).
Proof.
  apply (NewTxAnalyzerService_exits (grpc:=demo_grpc) () one_down 1 "down"%string
           (ErrorString "connection refused")); [reflexivity|reflexivity|].
  intros [|j] a Hj Ha; [|lia]. injection Ha as <-. eexists. reflexivity.
Defined.

(** X3 on the full run of the service with two addresses. *)
Lemma Start_one_worker_per_address_witness :
  run (Start (grpc:=demo_grpc) 0 two_clients) full_run = Some full_state ∧
  length (streams full_state) = 2 ∧ length (agentChannels full_state) = 2.
Proof.
  split; [vm_compute; reflexivity|].
  destruct (Start_one_worker_per_address (grpc:=demo_grpc) () two_addresses
              ["agent-a:50051"; "agent-b:50051"]%string two_clients 0 full_run full_state)
    as (Hs & Hc & _); [reflexivity|vm_compute; reflexivity|].
  split; [exact Hs|exact Hc].
Defined.

(** X5 in the state where the queue of the only agent holds 100
    requests and the ingestion goroutine has the next one to send. *)
Lemma full_queue_stalls_ingestion_witness :
  run (start one_agent (replicate 102 1)) stuck_run = Some stuck_state ∧
  ingest stuck_state = ISend 101 0 ∧
  step stuck_state LIngest = None.
Proof.
  split; [vm_compute; reflexivity|]. split; [reflexivity|].
  destruct (full_queue_stalls_ingestion (ext:=demo) 0 one_agent (replicate 102 1) stuck_run
              stuck_state 101 0 (mkChan (seq 1 100) false)) as [Hstep _];
    [vm_compute; reflexivity|reflexivity|reflexivity|reflexivity|exact Hstep].
Defined.

(** X6 for the first agent, once the request of the event [1] is on both
    queues. *)
Lemma queue_backlog_bounded_witness :
  run (start two_agents [1; 0]) (replicate 4 LIngest) = Some placed_state ∧
  sends 0 (trace placed_state) = [0] ∧ calls 0 (trace placed_state) = [] ∧
  length (sends 0 (trace placed_state)) ≤ length (calls 0 (trace placed_state)) + S queue_capacity.
Proof.
  split; [vm_compute; reflexivity|]. split; [reflexivity|]. split; [reflexivity|].
  destruct (queue_backlog_bounded (ext:=demo) 0 two_agents [1; 0] (replicate 4 LIngest)
              placed_state 0 (mkChan [0] false)) as (_ & _ & Hb);
    [vm_compute; reflexivity|reflexivity|].
  apply Hb. intros e. discriminate.
Defined.

(** X7 while the request of the event [1] is on the first queue only. *)
Lemma queues_filled_in_order_witness :
  run (start two_agents [1; 0]) [LIngest; LIngest; LIngest] = Some sending_state ∧
  sends 0 (trace sending_state) = [0] ∧ sends 1 (trace sending_state) = [] ∧
  length (sends 0 (trace sending_state)) ≤ S (length (sends 1 (trace sending_state))).
Proof.
  split; [vm_compute; reflexivity|]. split; [reflexivity|]. split; [reflexivity|].
  destruct (queues_filled_in_order (ext:=demo) 0 two_agents [1; 0] [LIngest; LIngest; LIngest]
              sending_state 0 1 (mkChan [0] false) (mkChan [] false)) as [_ Hl];
    [vm_compute; reflexivity|lia|reflexivity|reflexivity|exact Hl].
Defined.

(** X8 for the first agent on the full run. *)
Lemma stream_returns_nil_after_draining_witness :
  run (start two_agents [1; 0]) full_run = Some full_state ∧
  streams full_state !! 0 = Some (WDone None) ∧
  calls 0 (trace full_state) = seq 0 (length (heap full_state)).
Proof.
  split; [vm_compute; reflexivity|]. split; [reflexivity|].
  destruct (stream_returns_nil_after_draining (ext:=demo) 0 two_agents [1; 0] full_run
              full_state 0) as (c & _ & _ & _ & _ & Hc);
    [vm_compute; reflexivity|reflexivity|exact Hc].
Defined.


(** X10 on the full run: two calls, two result lines. *)
Lemma every_returned_call_is_logged_once_witness :
  run (start two_agents [1; 0]) full_run = Some full_state ∧
  count_if is_evaluate (trace full_state) = 2 ∧
  count_if is_result_log (trace full_state) = 2.
Proof.
  split; [vm_compute; reflexivity|]. split; [reflexivity|].
  destruct (every_returned_call_is_logged_once (ext:=demo) 0 two_agents [1; 0] full_run
              full_state) as [_ Hd]; [vm_compute; reflexivity|].
  rewrite <- (Hd eq_refl). reflexivity.
Defined.



(** X13 for the request of the event [1] on the full run. *)
Lemma request_ids_from_generator_witness :
  run (start two_agents [1; 0]) full_run = Some full_state ∧
  ∃ u tx, NewUUID 0 = inl u ∧ UUID_String u = "0"%string ∧ tx ∈ [1; 0] ∧ ToMessage tx = inl 1.
Proof.
  split; [vm_compute; reflexivity|].
  destruct (request_ids_from_generator (ext:=demo) 0 two_agents [1; 0] full_run full_state)
    as [Hk _]; [vm_compute; reflexivity|].
  destruct (Hk 0 (mkRequest (ext:=demo) "0" 1) eq_refl) as (u & tx & Hu & Hid & Hin & Hm).
  exists u, tx. split; [exact Hu|]. split; [symmetry; exact Hid|]. split; [exact Hin|exact Hm].
Defined.

(** X26 on the full run: the event [0] is the one that does not
    translate. *)
Lemma translation_failures_logged_in_order_witness :
  run (start two_agents [1; 0]) full_run = Some full_state ∧
  ingest full_state = IDone None ∧
  conversion_errors (trace full_state) = [ErrorString "unsupported transaction"] ∧
  conversion_errors (trace full_state) = untranslatable [1; 0].
Proof.
  split; [vm_compute; reflexivity|]. split; [reflexivity|]. split; [reflexivity|].
  destruct (translation_failures_logged_in_order (ext:=demo) 0 two_agents [1; 0] full_run
              full_state) as (_ & _ & Hd); [vm_compute; reflexivity|].
  exact (Hd eq_refl).
Defined.

Section NotifierWitnesses.
Import Strings.Ascii Notifier NotifierController NotifierExamples.

(** X21 on an oracle alert whose token address has a [~] and a [_]. *)
Lemma formatTelegramAlert_escapes_link_witness :
  formatTelegramAlert (lib:=demo_lib) oracle_alert =
    Ok ("⚠️ [TX](https://securityalliance\.dev/tx/0xdef) Reported price of 0x\~c\_1 was rejected"
        +:+ LF +:+ " Anchor Price: 1\.2" +:+ LF +:+ " Reporter Price: 1\.2") ∧
  ∃ icon rest, (icon = "️💰"%string ∨ icon = "⚠️"%string) ∧
    "⚠️ [TX](https://securityalliance\.dev/tx/0xdef) Reported price of 0x\~c\_1 was rejected"
      +:+ LF +:+ " Anchor Price: 1\.2" +:+ LF +:+ " Reporter Price: 1\.2"
    = icon +:+ " [TX](https://securityalliance\.dev/tx/" +:+ rest.
Proof.
  split; [vm_compute; reflexivity|].
  destruct (formatTelegramAlert_escapes_link (lib:=demo_lib) oracle_alert
              ("⚠️ [TX](https://securityalliance\.dev/tx/0xdef) Reported price of 0x\~c\_1 was rejected"
               +:+ LF +:+ " Anchor Price: 1\.2" +:+ LF +:+ " Reporter Price: 1\.2"))
    as [_ H]; [vm_compute; reflexivity|exact H].
Defined.

(** X23 with an empty [TELEGRAMKEY] and a webhook. *)
Lemma post_without_bot_witness :
  truthy (TELEGRAMKEY without_bot) = None ∧
  post (lib:=demo_lib) without_bot [market_alert; oracle_alert] [] =
    (Throw (Error "NO BOT KEY"), [ConsoleLog market_alert]).
Proof.
  split; [reflexivity|].
  rewrite (post_without_bot (lib:=demo_lib) without_bot market_alert [oracle_alert] []);
    reflexivity.
Defined.

(** X24 on a market alert and an oracle alert: three effects each. *)
Lemma post_success_witness :
  ∃ tr', post (lib:=demo_lib) with_bot [market_alert; oracle_alert] [] =
           (Ok "This action sent alert"%string, tr') ∧ length tr' = 6.
Proof.
  eexists. split; [vm_compute; reflexivity|].
  destruct (post_success (lib:=demo_lib) with_bot [market_alert; oracle_alert] [] _ _
              ltac:(vm_compute; reflexivity)) as [_ (chunks & Htr & Hall)].
  reflexivity.
Defined.

(** X25 on three alerts of which the second has an unknown identifier:
    the three effects of the first and the log line of the second. *)
Lemma post_failure_witness :
  ∃ e tr', post (lib:=demo_lib) with_bot [market_alert; unknown_alert; oracle_alert] [] =
             (Throw e, tr') ∧ e = Error "Invalid alert type" ∧ length tr' = 4.
Proof.
  eexists _, _. split; [vm_compute; reflexivity|].
  destruct (post_failure (lib:=demo_lib) with_bot [market_alert; unknown_alert; oracle_alert] []
              _ _ ltac:(vm_compute; reflexivity)) as (before & _).
  split; reflexivity.
Defined.

End NotifierWitnesses.
